(** * logrus (yyscamper fork): the entry pipeline of [entry.go]

    A shallow embedding of [entry.go]: field chaining ([WithFields],
    [WithField], [With], [WithError]), the per-module severity gate
    ([matchLevel]), the emission step ([log]) and the leveled logging
    methods.  Go maps are reference values, so field sets live in a heap
    of maps addressed by locations; the effects of a call (allocation,
    hook firing, buffer pool traffic, writes, diagnostics) are threaded
    through an explicit program state, and a call ends by returning, by
    panicking with a payload, or by terminating the process. *)

From Stdlib Require Import ZArith Lia.
From stdpp Require Import gmap strings list fin_maps pretty.

(** ** Severities *)

(** The [Level] constants are declared outside [entry.go]; [entry.go]
    compares them numerically ([level <= PanicLevel],
    [entry.Logger.level(moduleName) >= lv]).  They are numbered from the
    most severe ([PanicLevel], the zero value) to the least severe. *)
Inductive Level :=
  | PanicLevel | FatalLevel | ErrorLevel | WarnLevel
  | InfoLevel | DebugLevel | TraceLevel.

Definition Level_value (l : Level) : Z :=
  match l with
  | PanicLevel => 0 | FatalLevel => 1 | ErrorLevel => 2 | WarnLevel => 3
  | InfoLevel => 4 | DebugLevel => 5 | TraceLevel => 6
  end.

(** Go's [a >= b] and [a <= b] on levels. *)
Definition Level_geb (a b : Level) : bool := (Level_value b <=? Level_value a)%Z.
Definition Level_leb (a b : Level) : bool := (Level_value a <=? Level_value b)%Z.

(** [at_least_as_severe requested minimum]: the requested severity is at
    least as severe as the configured minimum. *)
Definition at_least_as_severe (requested minimum : Level) : Prop :=
  (Level_value requested <= Level_value minimum)%Z.

(** ** Values *)

Definition loc := positive.
Definition BufferId := nat.
Definition LoggerPtr := nat.

(** [*errors.Error] of github.com/yyscamper/errors: the fields and methods
    [WithError] reads ([Name], [Fields], [Stack()], [Error()]). *)
Record errors_Error := {
  Error_message : string;
  Error_Name : string;
  Error_Stack : string;
  Error_Fields : option loc;
}.

(** A non-nil [error] value: the structured kind or any other error. *)
Inductive GoError :=
  | StructuredError (e : errors_Error)
  | PlainError (msg : string).

(** The [error] interface; [None] is the nil interface. *)
Definition error := option GoError.

(** [interface{}] values stored in field sets. *)
Inductive Value :=
  | VNil
  | VString (s : string)
  | VInt (z : Z)
  | VBool (b : bool)
  | VError (e : GoError).

Definition Value_of_error (err : error) : Value :=
  match err with
  | None => VNil
  | Some e => VError e
  end.

Definition error_Error (e : GoError) : string :=
  match e with
  | StructuredError e => Error_message e
  | PlainError msg => msg
  end.

(** [fmt.Sprintf("%v", val)]. *)
Definition Sprintf_v (val : Value) : string :=
  match val with
  | VNil => "<nil>"
  | VString s => s
  | VInt z => pretty z
  | VBool true => "true"
  | VBool false => "false"
  | VError e => error_Error e
  end.

(** A Go map [Fields]: the contents of one map object. *)
Abbreviation FieldMap := (gmap string Value).
(** A [Fields] value is a reference to a map object, or nil. *)
Definition Fields := option loc.

Definition ErrorKey : string := "error".
Definition StacktraceKey : string := "stacktrace".
Definition ModuleNameKey : string := "module".
Definition DefaultModuleName : string := "".

(** ** Entries and loggers *)

Record Entry := {
  Entry_Logger : LoggerPtr;
  Entry_Data : Fields;
  Entry_Time : Z;
  Entry_Level : Level;
  Entry_Message : string;
  Entry_Buffer : option BufferId;
}.

(** [&Entry{Logger: lg, Data: data}]: the other fields take their zero
    values. *)
Definition mkEntry (lg : LoggerPtr) (data : Fields) : Entry :=
  {| Entry_Logger := lg; Entry_Data := data; Entry_Time := 0;
     Entry_Level := PanicLevel; Entry_Message := ""; Entry_Buffer := None |}.

Definition set_Time (t : Z) (e : Entry) : Entry :=
  {| Entry_Logger := Entry_Logger e; Entry_Data := Entry_Data e; Entry_Time := t;
     Entry_Level := Entry_Level e; Entry_Message := Entry_Message e;
     Entry_Buffer := Entry_Buffer e |}.
Definition set_Level (l : Level) (e : Entry) : Entry :=
  {| Entry_Logger := Entry_Logger e; Entry_Data := Entry_Data e;
     Entry_Time := Entry_Time e; Entry_Level := l;
     Entry_Message := Entry_Message e; Entry_Buffer := Entry_Buffer e |}.
Definition set_Message (m : string) (e : Entry) : Entry :=
  {| Entry_Logger := Entry_Logger e; Entry_Data := Entry_Data e;
     Entry_Time := Entry_Time e; Entry_Level := Entry_Level e;
     Entry_Message := m; Entry_Buffer := Entry_Buffer e |}.
Definition set_Buffer (b : option BufferId) (e : Entry) : Entry :=
  {| Entry_Logger := Entry_Logger e; Entry_Data := Entry_Data e;
     Entry_Time := Entry_Time e; Entry_Level := Entry_Level e;
     Entry_Message := Entry_Message e; Entry_Buffer := b |}.

Abbreviation Heap := (gmap loc FieldMap).

(** The collaborators an entry reaches through [entry.Logger]; none of
    them is defined in [entry.go], and each answers as its Go signature
    says, with a result and possibly an error.
    - [Logger_level]: the registry lookup [logger.level(moduleName)];
    - [Hooks_Fire]: [logger.Hooks.Fire(level, &entry)], which may update
      the entry it is handed and the maps it can reach;
    - [Formatter_Format]: [logger.Formatter.Format(&entry)];
    - [Out_Write]: [logger.Out.Write(serialized)]. *)
Record Logger := {
  Logger_level : string → Level;
  Hooks_Fire : Level → Entry → Heap → Heap * Entry * error;
  Formatter_Format : Entry → Heap → list Byte.byte * error;
  Out_Write : list Byte.byte → Z * error;
}.

(** ** Program state, outcomes and the effect monad *)

Inductive Event :=
  | EvFire (level : Level) (e : Entry)
  | EvStderr (msg : string)
  | EvLock
  | EvUnlock
  | EvGet (b : BufferId)
  | EvReset (b : BufferId)
  | EvPut (b : BufferId)
  | EvFormat (e : Entry)
  | EvWrite (serialized : list Byte.byte).

(** [bufferPool]: idle buffers, the next buffer [New] would create, and
    the number of buffers handed out and not yet put back. *)
Record Pool := {
  pool_idle : list BufferId;
  pool_next : BufferId;
  pool_out : nat;
}.

(** [clock] is what [time.Now()] reads.  [callstack] is the call stack of
    the running goroutine, innermost frame first: the frames of the code
    that calls into [entry.go], with the frames of the entry methods that
    capture the stack on top of them while they run. *)
Record State := {
  heap : Heap;
  pool : Pool;
  clock : Z;
  callstack : list string;
  trace : list Event;
}.

Definition set_heap (h : Heap) (s : State) : State :=
  {| heap := h; pool := pool s; clock := clock s; callstack := callstack s;
     trace := trace s |}.
Definition set_pool (p : Pool) (s : State) : State :=
  {| heap := heap s; pool := p; clock := clock s; callstack := callstack s;
     trace := trace s |}.
Definition add_event (ev : Event) (s : State) : State :=
  {| heap := heap s; pool := pool s; clock := clock s; callstack := callstack s;
     trace := trace s ++ [ev] |}.
Definition set_callstack (frames : list string) (s : State) : State :=
  {| heap := heap s; pool := pool s; clock := clock s; callstack := frames;
     trace := trace s |}.

(** What a panic carries. *)
Inductive PanicValue :=
  | PanicEntry (e : Entry)
  | PanicString (msg : string)
  | PanicRuntime (msg : string).

(** How a call ends: it returns, it panics (unwinding the stack), or the
    process terminates with a status code. *)
Inductive Outcome (A : Type) :=
  | Return (a : A)
  | Panicked (p : PanicValue)
  | Exited (code : Z).
Arguments Return {A} a.
Arguments Panicked {A} p.
Arguments Exited {A} code.

Definition M (A : Type) : Type := State → Outcome A * State.

Definition ret {A} (a : A) : M A := λ s, (Return a, s).
Definition bind {A B} (m : M A) (k : A → M B) : M B :=
  λ s, match m s with
       | (Return a, s') => k a s'
       | (Panicked p, s') => (Panicked p, s')
       | (Exited c, s') => (Exited c, s')
       end.

Declare Scope go_scope.
Delimit Scope go_scope with go.
Notation "x <- m ;; k" := (bind m (λ x, k))
  (at level 100, m at next level, right associativity) : go_scope.
Notation "m ;;; k" := (bind m (λ _, k))
  (at level 100, right associativity) : go_scope.
Local Open Scope go_scope.

Definition panic {A} (p : PanicValue) : M A := λ s, (Panicked p, s).
(** [Exit(code)] is declared outside [entry.go]; it terminates the
    process with status [code]. *)
Definition Exit {A} (code : Z) : M A := λ s, (Exited code, s).
Definition emit (ev : Event) : M unit := λ s, (Return tt, add_event ev s).

(** [defer d] followed by [body]: [d] runs when [body] returns and when
    it panics; the outcome is [body]'s unless [d] itself does not
    return.  Process termination runs no deferred call. *)
Definition with_defer {A} (d : M unit) (body : M A) : M A :=
  λ s, match body s with
       | (Return a, s') =>
           match d s' with
           | (Return _, s'') => (Return a, s'')
           | (Panicked p, s'') => (Panicked p, s'')
           | (Exited c, s'') => (Exited c, s'')
           end
       | (Panicked p, s') =>
           match d s' with
           | (Return _, s'') => (Panicked p, s'')
           | (Panicked p', s'') => (Panicked p', s'')
           | (Exited c, s'') => (Exited c, s'')
           end
       | (Exited c, s') => (Exited c, s')
       end.

(** ** Maps in the heap *)

(** The contents a [Fields] reference denotes; ranging over or reading a
    nil map behaves like the empty map. *)
Definition deref (h : Heap) (f : Fields) : FieldMap :=
  match f with
  | Some l => default ∅ (h !! l)
  | None => ∅
  end.

(** [make(Fields, n)] and the empty literal [Fields{}]: a new map object. *)
Definition make_Fields : M loc :=
  λ s, let l := fresh (dom (heap s)) in
       (Return l, set_heap (<[l := ∅]> (heap s)) s).

(** [m[k] = v]; assignment to an entry of a nil map panics. *)
Definition map_assign (m : Fields) (k : string) (v : Value) : M unit :=
  λ s, match m with
       | Some l =>
           match heap s !! l with
           | Some c => (Return tt, set_heap (<[l := <[k := v]> c]> (heap s)) s)
           | None => (Panicked (PanicRuntime "assignment to entry in nil map"), s)
           end
       | None => (Panicked (PanicRuntime "assignment to entry in nil map"), s)
       end.

(** The key/value pairs a [for k, v := range m] visits.  Go leaves the
    order of the visit unspecified; the loops of [entry.go] only copy the
    pairs into another map, and [range_order_irrelevant] below shows that
    every order gives the same result. *)
Definition range_of (m : Fields) : M (list (string * Value)) :=
  λ s, (Return (map_to_list (deref (heap s) m)), s).

(** [for k, v := range src { dst[k] = v }] over the visited pairs. *)
Fixpoint assign_all (dst : Fields) (kvs : list (string * Value)) : M unit :=
  match kvs with
  | [] => ret tt
  | (k, v) :: rest => map_assign dst k v ;;; assign_all dst rest
  end.

Definition copy_into (dst src : Fields) : M unit :=
  kvs <- range_of src ;; assign_all dst kvs.

(** ** Field chaining *)

(** [func NewEntry(logger *Logger) *Entry] *)
Definition NewEntry (logger : LoggerPtr) : M Entry :=
  data <- make_Fields ;;
  ret (mkEntry logger (Some data)).

(** [func (entry *Entry) WithFields(fields Fields) *Entry] *)
Definition Entry_WithFields (entry : Entry) (fields : Fields) : M Entry :=
  data <- make_Fields ;;
  copy_into (Some data) (Entry_Data entry) ;;;
  copy_into (Some data) fields ;;;
  ret (mkEntry (Entry_Logger entry) (Some data)).

(** [func (entry *Entry) WithField(key string, value interface{}) *Entry] *)
Definition Entry_WithField (entry : Entry) (key : string) (value : Value) : M Entry :=
  fields <- make_Fields ;;
  map_assign (Some fields) key value ;;;
  Entry_WithFields entry (Some fields).

(** [func stringify(val interface{}) string] *)
Definition stringify (val : Value) : string :=
  match val with
  | VString k => k
  | _ => Sprintf_v val
  end.

(** [extras[i]]; an index outside the slice panics. *)
Definition index (extras : list Value) (i : nat) : M Value :=
  match extras !! i with
  | Some v => ret v
  | None => panic (PanicRuntime "index out of range")
  end.

(** [for i := 0; i < n; i += 2 { fields[stringify(extras[i])] = extras[i+1] }]
    started at [i]; [fuel] bounds the number of iterations. *)
Fixpoint With_loop (fuel : nat) (fields : Fields) (extras : list Value)
    (n i : nat) : M unit :=
  if i <? n then
    match fuel with
    | O => panic (PanicRuntime "out of fuel")
    | S fuel' =>
        k <- index extras i ;;
        v <- index extras (i + 1) ;;
        map_assign fields (stringify k) v ;;;
        With_loop fuel' fields extras n (i + 2)
    end
  else ret tt.

(** [func (entry *Entry) With(key string, value interface{}, extras ...interface{}) *Entry] *)
Definition Entry_With (entry : Entry) (key : string) (value : Value)
    (extras : list Value) : M Entry :=
  fields <- make_Fields ;;
  map_assign (Some fields) key value ;;;
  let n := length extras in
  let n := if negb (n mod 2 =? 0) then n - 1 else n in
  With_loop (length extras) (Some fields) extras n 0 ;;;
  (if n <? length extras then
     k <- index extras n ;;
     map_assign (Some fields) (stringify k) VNil
   else ret tt) ;;;
  Entry_WithFields entry (Some fields).

(** [func (entry *Entry) WithModule(moduleName string) *Entry] *)
Definition Entry_WithModule (entry : Entry) (moduleName : string) : M Entry :=
  Entry_WithField entry ModuleNameKey (VString moduleName).

(** The newline that ends a diagnostic line and a line of a stack trace. *)
Definition LF : string := String (Ascii.ascii_of_nat 10) "".

Definition WithError_frame : string := "logrus.(*Entry).WithError".
Definition Stack_frame : string := "errors.Stack".

(** A call of the function [fn]: its frame is on the stack while its body
    runs and is gone when the body has returned or has panicked. *)
Definition call_frame {A} (fn : string) (body : M A) : M A :=
  λ s, match body (set_callstack (fn :: callstack s) s) with
       | (Return a, s') => (Return a, set_callstack (callstack s) s')
       | (Panicked p, s') => (Panicked p, set_callstack (callstack s) s')
       | (Exited c, s') => (Exited c, s')
       end.

(** The text of a stack trace: one frame per line. *)
Definition render_stack (frames : list string) : string :=
  String.concat LF frames.

(** Modelled from the spec: [errors.Stack(skip)] belongs to
    github.com/yyscamper/errors and is not part of this repository.  It
    captures the stack at the point where it is called and leaves out the
    [skip] innermost frames, its own frame counted first, so that
    [errors.Stack(2)] called by [WithError] yields the trace at the point
    of the [WithError] call with the adapter's own frame excluded. *)
Definition errors_Stack (skip : nat) : M string :=
  λ s, (Return (render_stack (drop skip (Stack_frame :: callstack s))), s).



(** The field set [WithError] builds before it hands it to [WithFields]
    (the [fields] variable of either branch of its type switch). *)
Definition WithError_fields (err : error) : M Fields :=
  match err with
  | Some (StructuredError realErr) =>
      fields <- make_Fields ;;
      map_assign (Some fields) ErrorKey (Value_of_error err) ;;;
      map_assign (Some fields) StacktraceKey (VString (Error_Stack realErr)) ;;;
      (if decide (Error_Name realErr ≠ "") then
         map_assign (Some fields) ModuleNameKey (VString (Error_Name realErr))
       else ret tt) ;;;
      copy_into (Some fields) (Error_Fields realErr) ;;;
      ret (Some fields)
  | _ =>
      trace <- errors_Stack 2 ;;
      fields <- make_Fields ;;
      map_assign (Some fields) ErrorKey (Value_of_error err) ;;;
      map_assign (Some fields) StacktraceKey (VString trace) ;;;
      ret (Some fields)
  end.

(** [func (entry *Entry) WithError(err error) *Entry] *)
Definition Entry_WithError (entry : Entry) (err : error) : M Entry :=
  call_frame WithError_frame
    (fields <- WithError_fields err ;;
     Entry_WithFields entry fields).

(** ** The buffer pool *)

(** [bufferPool.Get().( *bytes.Buffer)]: an idle buffer if there is one,
    otherwise a buffer made by [New]. *)
Definition bufferPool_Get : M BufferId :=
  λ s, let p := pool s in
       match pool_idle p with
       | b :: rest =>
           (Return b,
            add_event (EvGet b)
              (set_pool {| pool_idle := rest; pool_next := pool_next p;
                           pool_out := S (pool_out p) |} s))
       | [] =>
           (Return (pool_next p),
            add_event (EvGet (pool_next p))
              (set_pool {| pool_idle := []; pool_next := S (pool_next p);
                           pool_out := S (pool_out p) |} s))
       end.

(** [bufferPool.Put(buffer)] *)
Definition bufferPool_Put (b : BufferId) : M unit :=
  λ s, let p := pool s in
       (Return tt,
        add_event (EvPut b)
          (set_pool {| pool_idle := b :: pool_idle p; pool_next := pool_next p;
                       pool_out := pred (pool_out p) |} s)).

(** [buffer.Reset()] *)
Definition Buffer_Reset (b : BufferId) : M unit := emit (EvReset b).

(** [time.Now()] *)
Definition time_Now : M Z := λ s, (Return (clock s), s).

(** [fmt.Fprintf(os.Stderr, format, err)] with the rendered text. *)
Definition Fprintf_Stderr (text : string) : M unit := emit (EvStderr text).

(** [entry.Logger.mu.Lock()] and [Unlock()]. *)
Definition mu_Lock : M unit := emit EvLock.
Definition mu_Unlock : M unit := emit EvUnlock.

(** ** The gate, the emission step and the logging methods *)

Section Logging.

(** The logger an [entry.Logger] pointer refers to. *)
Variable loggers : LoggerPtr → Logger.

(** [spew.Sdump(args...)] (and [spew.Fdump], which writes the same
    text), [fmt.Sprintf(format, args...)] and
    [spew.Sprintf(format, args...)]. *)
Variable spew_Sdump : list Value → string.
Variable fmt_Sprintf : string → list Value → string.
Variable spew_Sprintf : string → list Value → string.

(** [name, ok := entry.Data[ModuleNameKey]] *)
Definition map_lookup (m : Fields) (k : string) : M (option Value) :=
  λ s, (Return (deref (heap s) m !! k), s).

(** [name.(string)]: the unchecked type assertion. *)
Definition assert_string (v : Value) : M string :=
  match v with
  | VString n => ret n
  | _ => panic (PanicRuntime "interface conversion: interface {} is not string")
  end.

(** [func (entry *Entry) matchLevel(lv Level) bool] *)
Definition Entry_matchLevel (entry : Entry) (lv : Level) : M bool :=
  moduleName <-
    (match Entry_Data entry with
     | Some _ =>
         name <- map_lookup (Entry_Data entry) ModuleNameKey ;;
         match name with
         | Some name => assert_string name
         | None => ret DefaultModuleName
         end
     | None => ret DefaultModuleName
     end) ;;
  ret (Level_geb (Logger_level (loggers (Entry_Logger entry)) moduleName) lv).

(** [entry.Logger.Hooks.Fire(level, &entry)] *)
Definition fire (level : Level) (entry : Entry) : M (Entry * error) :=
  λ s, let '(h, entry', err) :=
         Hooks_Fire (loggers (Entry_Logger entry)) level entry (heap s) in
       (Return (entry', err), set_heap h (add_event (EvFire level entry) s)).

(** [entry.Logger.Formatter.Format(&entry)] *)
Definition format (entry : Entry) : M (list Byte.byte * error) :=
  λ s, (Return (Formatter_Format (loggers (Entry_Logger entry)) entry (heap s)),
        add_event (EvFormat entry) s).

(** [entry.Logger.Out.Write(serialized)] *)
Definition write (entry : Entry) (serialized : list Byte.byte) : M (Z * error) :=
  λ s, (Return (Out_Write (loggers (Entry_Logger entry)) serialized),
        add_event (EvWrite serialized) s).

(** [func (entry Entry) log(level Level, msg string)]; the receiver is a
    copy of the caller's entry. *)
Definition Entry_log (entry : Entry) (level : Level) (msg : string) : M unit :=
  now <- time_Now ;;
  let entry := set_Time now entry in
  let entry := set_Level level entry in
  let entry := set_Message msg entry in
  fired <- fire level entry ;;
  let entry := fired.1 in
  (match fired.2 with
   | Some err =>
       mu_Lock ;;;
       Fprintf_Stderr ("Failed to fire hook: " +:+ error_Error err +:+ LF) ;;;
       mu_Unlock
   | None => ret tt
   end) ;;;
  buffer <- bufferPool_Get ;;
  Buffer_Reset buffer ;;;
  with_defer (bufferPool_Put buffer)
    (let entry := set_Buffer (Some buffer) entry in
     formatted <- format entry ;;
     let entry := set_Buffer None entry in
     (match formatted.2 with
      | Some err =>
          mu_Lock ;;;
          Fprintf_Stderr ("Failed to obtain reader, " +:+ error_Error err +:+ LF) ;;;
          mu_Unlock
      | None =>
          mu_Lock ;;;
          written <- write entry formatted.1 ;;
          (match written.2 with
           | Some err =>
               Fprintf_Stderr ("Failed to write to log, " +:+ error_Error err +:+ LF)
           | None => ret tt
           end) ;;;
          mu_Unlock
      end) ;;;
     if Level_leb level PanicLevel then panic (PanicEntry entry) else ret tt).

(** [func (entry *Entry) sprintlnn(args ...interface{}) string] *)
Definition Entry_sprintlnn (args : list Value) : string :=
  let msg := spew_Sdump args +:+ LF in
  String.substring 0 (String.length msg - 1) msg.

Definition Entry_Trace (entry : Entry) (args : list Value) : M unit :=
  ok <- Entry_matchLevel entry TraceLevel ;;
  if ok then Entry_log entry TraceLevel (spew_Sdump args) else ret tt.

Definition Entry_Debug (entry : Entry) (args : list Value) : M unit :=
  ok <- Entry_matchLevel entry DebugLevel ;;
  if ok then Entry_log entry DebugLevel (spew_Sdump args) else ret tt.

Definition Entry_Info (entry : Entry) (args : list Value) : M unit :=
  ok <- Entry_matchLevel entry InfoLevel ;;
  if ok then Entry_log entry InfoLevel (spew_Sdump args) else ret tt.

Definition Entry_Print (entry : Entry) (args : list Value) : M unit :=
  Entry_Info entry args.

Definition Entry_Warn (entry : Entry) (args : list Value) : M unit :=
  ok <- Entry_matchLevel entry WarnLevel ;;
  if ok then Entry_log entry WarnLevel (spew_Sdump args) else ret tt.

Definition Entry_Warning (entry : Entry) (args : list Value) : M unit :=
  Entry_Warn entry args.

Definition Entry_Error (entry : Entry) (args : list Value) : M unit :=
  ok <- Entry_matchLevel entry ErrorLevel ;;
  if ok then Entry_log entry ErrorLevel (spew_Sdump args) else ret tt.

Definition Entry_Fatal (entry : Entry) (args : list Value) : M unit :=
  ok <- Entry_matchLevel entry FatalLevel ;;
  (if ok then Entry_log entry FatalLevel (spew_Sdump args) else ret tt) ;;;
  Exit 1.

Definition Entry_Panic (entry : Entry) (args : list Value) : M unit :=
  ok <- Entry_matchLevel entry PanicLevel ;;
  (if ok then Entry_log entry PanicLevel (spew_Sdump args) else ret tt) ;;;
  panic (PanicString (spew_Sdump args)).

(** The Printf family. *)

Definition Entry_Tracef (entry : Entry) (fmt : string) (args : list Value) : M unit :=
  ok <- Entry_matchLevel entry TraceLevel ;;
  if ok then Entry_Trace entry [VString (spew_Sprintf fmt args)] else ret tt.

Definition Entry_Debugf (entry : Entry) (fmt : string) (args : list Value) : M unit :=
  ok <- Entry_matchLevel entry DebugLevel ;;
  if ok then Entry_Debug entry [VString (fmt_Sprintf fmt args)] else ret tt.

Definition Entry_Infof (entry : Entry) (fmt : string) (args : list Value) : M unit :=
  ok <- Entry_matchLevel entry InfoLevel ;;
  if ok then Entry_Info entry [VString (fmt_Sprintf fmt args)] else ret tt.

Definition Entry_Printf (entry : Entry) (fmt : string) (args : list Value) : M unit :=
  Entry_Infof entry fmt args.

Definition Entry_Warnf (entry : Entry) (fmt : string) (args : list Value) : M unit :=
  ok <- Entry_matchLevel entry WarnLevel ;;
  if ok then Entry_Warn entry [VString (fmt_Sprintf fmt args)] else ret tt.

Definition Entry_Warningf (entry : Entry) (fmt : string) (args : list Value) : M unit :=
  Entry_Warnf entry fmt args.

Definition Entry_Errorf (entry : Entry) (fmt : string) (args : list Value) : M unit :=
  ok <- Entry_matchLevel entry ErrorLevel ;;
  if ok then Entry_Error entry [VString (fmt_Sprintf fmt args)] else ret tt.

Definition Entry_Fatalf (entry : Entry) (fmt : string) (args : list Value) : M unit :=
  ok <- Entry_matchLevel entry FatalLevel ;;
  (if ok then Entry_Fatal entry [VString (fmt_Sprintf fmt args)] else ret tt) ;;;
  Exit 1.

Definition Entry_Panicf (entry : Entry) (fmt : string) (args : list Value) : M unit :=
  ok <- Entry_matchLevel entry PanicLevel ;;
  if ok then Entry_Panic entry [VString (fmt_Sprintf fmt args)] else ret tt.

(** The Println family. *)

Definition Entry_Traceln (entry : Entry) (args : list Value) : M unit :=
  ok <- Entry_matchLevel entry TraceLevel ;;
  if ok then Entry_Trace entry [VString (Entry_sprintlnn args)] else ret tt.

Definition Entry_Debugln (entry : Entry) (args : list Value) : M unit :=
  ok <- Entry_matchLevel entry DebugLevel ;;
  if ok then Entry_Debug entry [VString (Entry_sprintlnn args)] else ret tt.

Definition Entry_Infoln (entry : Entry) (args : list Value) : M unit :=
  ok <- Entry_matchLevel entry InfoLevel ;;
  if ok then Entry_Info entry [VString (Entry_sprintlnn args)] else ret tt.

Definition Entry_Println (entry : Entry) (args : list Value) : M unit :=
  Entry_Infoln entry args.

Definition Entry_Warnln (entry : Entry) (args : list Value) : M unit :=
  ok <- Entry_matchLevel entry WarnLevel ;;
  if ok then Entry_Warn entry [VString (Entry_sprintlnn args)] else ret tt.

Definition Entry_Warningln (entry : Entry) (args : list Value) : M unit :=
  Entry_Warnln entry args.

Definition Entry_Errorln (entry : Entry) (args : list Value) : M unit :=
  ok <- Entry_matchLevel entry ErrorLevel ;;
  if ok then Entry_Error entry [VString (Entry_sprintlnn args)] else ret tt.

Definition Entry_Fatalln (entry : Entry) (args : list Value) : M unit :=
  ok <- Entry_matchLevel entry FatalLevel ;;
  (if ok then Entry_Fatal entry [VString (Entry_sprintlnn args)] else ret tt) ;;;
  Exit 1.

Definition Entry_Panicln (entry : Entry) (args : list Value) : M unit :=
  ok <- Entry_matchLevel entry PanicLevel ;;
  if ok then Entry_Panic entry [VString (Entry_sprintlnn args)] else ret tt.

(** The leveled logging methods of [Entry], and a call of one of them
    (the format string is used by the Printf family only). *)
Inductive Method :=
  | Trace | Debug | Info | Print | Warn | Warning | Error | Fatal | Panic
  | Tracef | Debugf | Infof | Printf | Warnf | Warningf | Errorf | Fatalf | Panicf
  | Traceln | Debugln | Infoln | Println | Warnln | Warningln | Errorln
  | Fatalln | Panicln.

Definition call (m : Method) (entry : Entry) (fmt : string)
    (args : list Value) : M unit :=
  match m with
  | Trace => Entry_Trace entry args
  | Debug => Entry_Debug entry args
  | Info => Entry_Info entry args
  | Print => Entry_Print entry args
  | Warn => Entry_Warn entry args
  | Warning => Entry_Warning entry args
  | Error => Entry_Error entry args
  | Fatal => Entry_Fatal entry args
  | Panic => Entry_Panic entry args
  | Tracef => Entry_Tracef entry fmt args
  | Debugf => Entry_Debugf entry fmt args
  | Infof => Entry_Infof entry fmt args
  | Printf => Entry_Printf entry fmt args
  | Warnf => Entry_Warnf entry fmt args
  | Warningf => Entry_Warningf entry fmt args
  | Errorf => Entry_Errorf entry fmt args
  | Fatalf => Entry_Fatalf entry fmt args
  | Panicf => Entry_Panicf entry fmt args
  | Traceln => Entry_Traceln entry args
  | Debugln => Entry_Debugln entry args
  | Infoln => Entry_Infoln entry args
  | Println => Entry_Println entry args
  | Warnln => Entry_Warnln entry args
  | Warningln => Entry_Warningln entry args
  | Errorln => Entry_Errorln entry args
  | Fatalln => Entry_Fatalln entry args
  | Panicln => Entry_Panicln entry args
  end.

End Logging.

(** The severity a method logs at. *)
Definition Method_level (m : Method) : Level :=
  match m with
  | Trace | Tracef | Traceln => TraceLevel
  | Debug | Debugf | Debugln => DebugLevel
  | Info | Print | Infof | Printf | Infoln | Println => InfoLevel
  | Warn | Warning | Warnf | Warningf | Warnln | Warningln => WarnLevel
  | Error | Errorf | Errorln => ErrorLevel
  | Fatal | Fatalf | Fatalln => FatalLevel
  | Panic | Panicf | Panicln => PanicLevel
  end.

(** ** The level registry *)

Definition WildcardModule : string := "*".

(** Modelled from the spec: [logger.level(moduleName)] is declared outside
    [entry.go].  The Level Registry maps a module name to a minimum
    severity; an unmapped module name resolves to the wildcard entry, and
    to a baseline severity when no wildcard is set. *)
Definition effectiveLevel (registry : gmap string Level) (baseline : Level)
    (moduleName : string) : Level :=
  match registry !! moduleName with
  | Some lv => lv
  | None =>
      match registry !! WildcardModule with
      | Some lv => lv
      | None => baseline
      end
  end.

(** ** Vocabulary of the statements *)

(** One assignment [m[k] = v] on the contents of a map. *)
Definition assign1 (m : FieldMap) (kv : string * Value) : FieldMap :=
  <[kv.1 := kv.2]> m.

(** A [Fields] reference is valid in a heap when it is nil or refers to
    an allocated map object (Go has no dangling map references). *)
Definition valid_ref (h : Heap) (f : Fields) : Prop :=
  match f with
  | Some l => is_Some (h !! l)
  | None => True
  end.

(** [derived E s new E' s']: a chaining call on entry [E] in state [s]
    produced entry [E'] and state [s'] by copy-on-write.  [E'] has [E]'s
    logger; its field set is a map object that did not exist in [s] and
    holds [new] laid over [E]'s fields; every map object of [s] has the
    contents it had; nothing but the heap changed. *)
Definition derived (E : Entry) (s : State) (new : FieldMap)
    (E' : Entry) (s' : State) : Prop :=
  Entry_Logger E' = Entry_Logger E ∧
  (∃ l, Entry_Data E' = Some l ∧ heap s !! l = None ∧
        heap s' !! l = Some (new ∪ deref (heap s) (Entry_Data E))) ∧
  (∀ l, is_Some (heap s !! l) → heap s' !! l = heap s !! l) ∧
  s' = set_heap (heap s') s.

(** The pairs [With] is specified to take from its trailing arguments:
    consecutive key/value pairs, keys in display-string form, and a
    final unpaired key with a nil value.  This definition follows the
    specification; [Entry_With] above follows the index loop of the
    source, and the two are compared below. *)
Fixpoint spec_With_pairs (extras : list Value) : list (string * Value) :=
  match extras with
  | k :: v :: rest => (stringify k, v) :: spec_With_pairs rest
  | [k] => [(stringify k, VNil)]
  | [] => []
  end.

(** The contents the specification gives the map [With] hands to
    [WithFields]: the leading pair, then the pairs of the trailing
    arguments, assigned in that order. *)
Definition With_fields (key : string) (value : Value) (extras : list Value)
    : FieldMap :=
  foldl assign1 ∅ ((key, value) :: spec_With_pairs extras).

(** The reserved keys [WithError] writes for a structured error before it
    merges the error's attached fields: the error, its own stack trace,
    and its module name when that is not empty. *)
Definition reserved_fields (r : errors_Error) : FieldMap :=
  if decide (Error_Name r = "") then
    {[ ErrorKey := VError (StructuredError r);
       StacktraceKey := VString (Error_Stack r) ]}
  else
    {[ ErrorKey := VError (StructuredError r);
       StacktraceKey := VString (Error_Stack r);
       ModuleNameKey := VString (Error_Name r) ]}.

(** The structured kind of the type switch in [WithError]. *)
Definition is_structured (err : error) : bool :=
  match err with
  | Some (StructuredError _) => true
  | _ => false
  end.

(** *** The emission step in terms of what its collaborators answer *)

(** The copy of the entry [log] stamps before it fires the hooks. *)
Definition stamp (now : Z) (level : Level) (msg : string) (e : Entry) : Entry :=
  set_Message msg (set_Level level (set_Time now e)).

(** The buffer [bufferPool.Get()] hands out, and the pool once that
    buffer has been put back. *)
Definition next_buffer (p : Pool) : BufferId :=
  match pool_idle p with
  | b :: _ => b
  | [] => pool_next p
  end.

Definition pool_after (p : Pool) : Pool :=
  match pool_idle p with
  | b :: rest => {| pool_idle := b :: rest; pool_next := pool_next p;
                    pool_out := pool_out p |}
  | [] => {| pool_idle := [pool_next p]; pool_next := S (pool_next p);
             pool_out := pool_out p |}
  end.

(** What the hooks, the formatter and the writer answer during one run of
    [log]. *)
Record Emission := {
  em_record : Entry;
  em_heap : Heap;
  em_fired : Entry;
  em_hook_error : error;
  em_buffer : BufferId;
  em_serialized : list Byte.byte;
  em_format_error : error;
  em_write_error : error;
}.

Definition emission (loggers : LoggerPtr → Logger) (entry : Entry)
    (level : Level) (msg : string) (s : State) : Emission :=
  let e0 := stamp (clock s) level msg entry in
  let fired := Hooks_Fire (loggers (Entry_Logger e0)) level e0 (heap s) in
  let e1 := fired.1.2 in
  let b := next_buffer (pool s) in
  let formatted :=
    Formatter_Format (loggers (Entry_Logger e1)) (set_Buffer (Some b) e1)
      fired.1.1 in
  let written := Out_Write (loggers (Entry_Logger e1)) formatted.1 in
  {| em_record := e0; em_heap := fired.1.1; em_fired := e1;
     em_hook_error := fired.2; em_buffer := b;
     em_serialized := formatted.1; em_format_error := formatted.2;
     em_write_error := written.2 |}.

(** The record a Panic-level emission unwinds with: the entry as the
    hooks left it, its buffer detached. *)
Definition em_payload (em : Emission) : Entry := set_Buffer None (em_fired em).

Definition hook_report (err : GoError) : Event :=
  EvStderr ("Failed to fire hook: " +:+ error_Error err +:+ LF).
Definition format_report (err : GoError) : Event :=
  EvStderr ("Failed to obtain reader, " +:+ error_Error err +:+ LF).
Definition write_report (err : GoError) : Event :=
  EvStderr ("Failed to write to log, " +:+ error_Error err +:+ LF).

(** The events of one run of [log], in the order they happen. *)
Definition log_events (level : Level) (em : Emission) : list Event :=
  [EvFire level (em_record em)]
  ++ match em_hook_error em with
     | Some err => [EvLock; hook_report err; EvUnlock]
     | None => []
     end
  ++ [EvGet (em_buffer em); EvReset (em_buffer em);
      EvFormat (set_Buffer (Some (em_buffer em)) (em_fired em))]
  ++ match em_format_error em with
     | Some err => [EvLock; format_report err; EvUnlock]
     | None =>
         [EvLock; EvWrite (em_serialized em)]
         ++ match em_write_error em with
            | Some err => [write_report err]
            | None => []
            end
         ++ [EvUnlock]
     end
  ++ [EvPut (em_buffer em)].

(** The module name the gate resolves for an entry: the value under the
    module-name key when it is a string, the default name when the key is
    absent; [None] when the key holds anything else. *)
Definition resolved_module (h : Heap) (entry : Entry) : option string :=
  match deref h (Entry_Data entry) !! ModuleNameKey with
  | None => Some DefaultModuleName
  | Some (VString name) => Some name
  | Some _ => None
  end.

(** The message a logging method hands to [log]. *)
Definition Method_message (spew_Sdump : list Value → string)
    (fmt_Sprintf spew_Sprintf : string → list Value → string)
    (m : Method) (fmt : string) (args : list Value) : string :=
  match m with
  | Trace | Debug | Info | Print | Warn | Warning | Error | Fatal | Panic =>
      spew_Sdump args
  | Tracef => spew_Sdump [VString (spew_Sprintf fmt args)]
  | Debugf | Infof | Printf | Warnf | Warningf | Errorf | Fatalf | Panicf =>
      spew_Sdump [VString (fmt_Sprintf fmt args)]
  | Traceln | Debugln | Infoln | Println | Warnln | Warningln | Errorln
  | Fatalln | Panicln =>
      spew_Sdump [VString (Entry_sprintlnn spew_Sdump args)]
  end.

(** How a logging call ends when its record is emitted, and when the gate
    suppresses it. *)
Definition emitted_outcome (m : Method) (em : Emission) : Outcome unit :=
  match Method_level m with
  | PanicLevel => Panicked (PanicEntry (em_payload em))
  | FatalLevel => Exited 1
  | _ => Return tt
  end.

Definition suppressed_outcome (m : Method) : Outcome unit :=
  match Method_level m with
  | FatalLevel => Exited 1
  | _ => Return tt
  end.

(** The state one emission leaves behind. *)
Definition emitted_state (level : Level) (em : Emission) (s : State) : State :=
  {| heap := em_heap em; pool := pool_after (pool s); clock := clock s;
     callstack := callstack s; trace := trace s ++ log_events level em |}.

Definition type_assertion_panic : PanicValue :=
  PanicRuntime "interface conversion: interface {} is not string".

(** Does an event hand bytes to the output sink? *)
Definition is_write (ev : Event) : bool :=
  match ev with
  | EvWrite _ => true
  | _ => false
  end.

(** A sequence of logging calls made one after the other by a caller
    that recovers from the panics; the run ends with the process. *)
Record LogCall := {
  lc_method : Method;
  lc_entry : Entry;
  lc_format : string;
  lc_args : list Value;
}.

Fixpoint run_calls (loggers : LoggerPtr → Logger)
    (spew_Sdump : list Value → string)
    (fmt_Sprintf spew_Sprintf : string → list Value → string)
    (calls : list LogCall) (s : State) : State :=
  match calls with
  | [] => s
  | c :: rest =>
      match call loggers spew_Sdump fmt_Sprintf spew_Sprintf
              (lc_method c) (lc_entry c) (lc_format c) (lc_args c) s with
      | (Exited _, s') => s'
      | (_, s') => run_calls loggers spew_Sdump fmt_Sprintf spew_Sprintf rest s'
      end
  end.

(** ** Sample data for the concrete instances *)

Definition sample_pool : Pool :=
  {| pool_idle := []; pool_next := 0; pool_out := 0 |}.

(** A heap with two map objects: the fields of a parent record and a
    batch of fields to add. *)
Definition sample_heap : Heap :=
  {[ 1%positive := {[ "user" := VString "ann"; "a" := VInt 0 ]};
     2%positive := {[ "a" := VInt 7; "req" := VInt 42 ]} ]}.

Definition sample_state : State :=
  {| heap := sample_heap; pool := sample_pool; clock := 1700000000;
     callstack := ["main.handle"; "main.main"]; trace := [] |}.

Definition sample_entry : Entry := mkEntry 0 (Some 1%positive).

(** Collaborators that never fail: hooks that leave the entry alone, a
    formatter that serializes the message, a writer that accepts
    everything. *)
Definition quiet_hooks (level : Level) (e : Entry) (h : Heap)
    : Heap * Entry * error := (h, e, None).
Definition message_formatter (e : Entry) (h : Heap) : list Byte.byte * error :=
  (String.list_byte_of_string (Entry_Message e), None).
Definition accepting_writer (serialized : list Byte.byte) : Z * error :=
  (Z.of_nat (length serialized), None).

(** Stand-ins for the message renderers of spew and fmt. *)
Definition sample_Sdump (args : list Value) : string :=
  match args with
  | [] => ""
  | v :: _ => Sprintf_v v
  end.
Definition sample_Sprintf (fmt : string) (args : list Value) : string := fmt.

(** The registry of the gating example: {"foo": Debug, "*": Info}. *)
Definition gating_registry : gmap string Level :=
  {[ "foo" := DebugLevel; "*" := InfoLevel ]}.

Definition gating_loggers (p : LoggerPtr) : Logger :=
  {| Logger_level := effectiveLevel gating_registry ErrorLevel;
     Hooks_Fire := quiet_hooks; Formatter_Format := message_formatter;
     Out_Write := accepting_writer |}.

(** A logger at Info level whose formatter always fails. *)
Definition failing_format_loggers (p : LoggerPtr) : Logger :=
  {| Logger_level := λ _, InfoLevel;
     Hooks_Fire := quiet_hooks;
     Formatter_Format := λ _ _, ([], Some (PlainError "cannot marshal"));
     Out_Write := accepting_writer |}.

(** A logger whose minimum severity is Trace for every module: every
    severity passes its gate. *)
Definition trace_loggers (p : LoggerPtr) : Logger :=
  {| Logger_level := λ _, TraceLevel;
     Hooks_Fire := quiet_hooks; Formatter_Format := message_formatter;
     Out_Write := accepting_writer |}.

(** A logger whose minimum severity is Panic for every module. *)
Definition panic_only_loggers (p : LoggerPtr) : Logger :=
  {| Logger_level := λ _, PanicLevel;
     Hooks_Fire := quiet_hooks; Formatter_Format := message_formatter;
     Out_Write := accepting_writer |}.

(** An entry whose module field holds the integer 42, as
    [With("module", 42)] leaves it, at location 5. *)
Definition untyped_module_state : State :=
  {| heap := <[ 5%positive := {[ "module" := VInt 42 ]} ]> sample_heap;
     pool := sample_pool; clock := 1700000000;
     callstack := ["main.handle"; "main.main"]; trace := [] |}.

Definition untyped_module_entry : Entry := mkEntry 0 (Some 5%positive).

(** A structured error whose attached fields use all three reserved keys,
    in a heap that holds those attached fields at location 3. *)
Definition shadowing_error : errors_Error :=
  {| Error_message := "disk full"; Error_Name := "storage";
     Error_Stack := "store.go:42"; Error_Fields := Some 3%positive |}.

Definition shadowing_state : State :=
  {| heap := <[ 3%positive := {[ "error" := VString "shadowed";
                                  "stacktrace" := VString "forged";
                                  "module" := VString "other";
                                  "path" := VString "/tmp" ]} ]> sample_heap;
     pool := sample_pool; clock := 1700000000;
     callstack := ["main.handle"; "main.main"]; trace := [] |}.

(** A structured error without a module name whose attached fields carry
    a stack-trace key of their own, at location 4. *)
Definition restacked_error : errors_Error :=
  {| Error_message := "timeout"; Error_Name := "";
     Error_Stack := "net.go:7"; Error_Fields := Some 4%positive |}.

Definition restacked_state : State :=
  {| heap := <[ 4%positive := {[ "stacktrace" := VString "user supplied" ]} ]>
               sample_heap;
     pool := sample_pool; clock := 1700000000;
     callstack := ["main.handle"; "main.main"]; trace := [] |}.

(** ** The remaining methods of [entry.go] *)

Section Formatting.

Variable loggers : LoggerPtr → Logger.


End Formatting.

(** [errors.NewGenerator(name).WithFields(errFields)] of
    github.com/yyscamper/errors, kept as the two arguments
    [NewErrorGenerator] builds it from. *)
Record errors_Generator := {
  Generator_Name : string;
  Generator_Fields : Fields;
}.

(** [name, ok := entry.Data[ModuleNameKey].(string)]: the checked type
    assertion, on the value the lookup found (nil when the key is absent
    or the map is nil). *)
Definition checked_string (v : option Value) : string * bool :=
  match v with
  | Some (VString n) => (n, true)
  | _ => ("", false)
  end.

(** [func (entry *Entry) NewErrorGenerator() *errors.Generator] *)
Definition Entry_NewErrorGenerator (entry : Entry) : M errors_Generator :=
  found <- map_lookup (Entry_Data entry) ModuleNameKey ;;
  let name := (checked_string found).1 in
  let ok := (checked_string found).2 in
  let name := if negb ok then DefaultModuleName else name in
  errFields <- make_Fields ;;
  copy_into (Some errFields) (Entry_Data entry) ;;;
  ret {| Generator_Name := name; Generator_Fields := Some errFields |}.

(** *** Vocabulary of the further statements *)

(** Successive [WithField] calls, one per pair. *)
Fixpoint WithField_chain (entry : Entry) (ps : list (string * Value)) : M Entry :=
  match ps with
  | [] => ret entry
  | (k, v) :: rest =>
      entry' <- Entry_WithField entry k v ;; WithField_chain entry' rest
  end.

Definition is_fire (ev : Event) : bool :=
  match ev with EvFire _ _ => true | _ => false end.
Definition is_format (ev : Event) : bool :=
  match ev with EvFormat _ => true | _ => false end.
Definition is_get (ev : Event) : bool :=
  match ev with EvGet _ => true | _ => false end.
Definition is_put (ev : Event) : bool :=
  match ev with EvPut _ => true | _ => false end.

(** How often events of one kind occur. *)
Definition count (kind : Event → bool) (evs : list Event) : nat :=
  length (List.filter kind evs).


(** * Properties *)

(** ** The effect monad *)

Lemma bind_Return {A B} (m : M A) (k : A → M B) s a s' :
  m s = (Return a, s') → bind m k s = k a s'.
Proof. intros H. unfold bind. by rewrite H. Qed.

Lemma bind_Panicked {A B} (m : M A) (k : A → M B) s p s' :
  m s = (Panicked p, s') → bind m k s = (Panicked p, s').
Proof. intros H. unfold bind. by rewrite H. Qed.

Lemma bind_Exited {A B} (m : M A) (k : A → M B) s c s' :
  m s = (Exited c, s') → bind m k s = (Exited c, s').
Proof. intros H. unfold bind. by rewrite H. Qed.

Lemma bind_assoc {A B C} (m : M A) (k1 : A → M B) (k2 : B → M C) s :
  bind (bind m k1) k2 s = bind m (λ a, bind (k1 a) k2) s.
Proof. unfold bind. by destruct (m s) as [[a|p|c] s']. Qed.

Lemma set_heap_id s : set_heap (heap s) s = s.
Proof. by destruct s. Qed.

(** ** Maps in the heap *)

Lemma foldl_assign1_union (kvs : list (string * Value)) (c : FieldMap) :
  NoDup kvs.*1 → foldl assign1 c kvs = list_to_map kvs ∪ c.
Proof.
  revert c. induction kvs as [|[k v] rest IH]; intros c Hnd; simpl.
  - by rewrite (left_id_L ∅ (∪)).
  - apply NoDup_cons in Hnd as [Hk Hrest].
    rewrite IH by done. unfold assign1; simpl.
    assert (list_to_map rest !! k = (None : option Value)) as Hnone
      by by apply not_elem_of_list_to_map_1.
    by rewrite <- insert_union_r, insert_union_l.
Qed.

(** The order in which a [range] loop visits a map does not matter for the
    copy loops of [entry.go]: every enumeration of the map's entries
    leaves the destination with the source laid over it. *)
Lemma range_order_irrelevant (kvs : list (string * Value)) (m c : FieldMap) :
  kvs ≡ₚ map_to_list m → foldl assign1 c kvs = m ∪ c.
Proof.
  intros Hp.
  assert (NoDup kvs.*1) as Hnd.
  { rewrite Hp. apply NoDup_fst_map_to_list. }
  rewrite foldl_assign1_union by done.
  f_equal. rewrite <- (list_to_map_to_list m).
  apply list_to_map_proper; [done|]. done.
Qed.

Lemma assign_all_run l (c : FieldMap) kvs s :
  heap s !! l = Some c →
  assign_all (Some l) kvs s
  = (Return tt, set_heap (<[l := foldl assign1 c kvs]> (heap s)) s).
Proof.
  revert c s. induction kvs as [|[k v] rest IH]; intros c s Hl; simpl.
  - unfold ret. by rewrite insert_id, set_heap_id.
  - erewrite bind_Return; last first.
    { unfold map_assign. by rewrite Hl. }
    erewrite IH; last first.
    { simpl. apply lookup_insert_eq. }
    simpl. by rewrite insert_insert_eq.
Qed.

Lemma copy_into_run l (c : FieldMap) src s :
  heap s !! l = Some c →
  copy_into (Some l) src s
  = (Return tt, set_heap (<[l := deref (heap s) src ∪ c]> (heap s)) s).
Proof.
  intros Hl. unfold copy_into.
  erewrite bind_Return; last by reflexivity.
  erewrite assign_all_run by done.
  by rewrite (range_order_irrelevant _ (deref (heap s) src)).
Qed.

Lemma fresh_loc_None (h : Heap) : h !! fresh (dom h) = None.
Proof. apply not_elem_of_dom, is_fresh. Qed.

Lemma deref_insert_valid (h : Heap) l c f :
  h !! l = None → valid_ref h f → deref (<[l := c]> h) f = deref h f.
Proof.
  intros Hl Hv. destruct f as [l'|]; simpl; [|done].
  destruct (decide (l = l')) as [->|Hne].
  - destruct Hv as [x Hx]. congruence.
  - by rewrite lookup_insert_ne.
Qed.

Lemma deref_insert_fresh_empty (h : Heap) l f :
  h !! l = None → deref (<[l := ∅]> h) f = deref h f.
Proof.
  intros Hl. destruct f as [l'|]; simpl; [|done].
  destruct (decide (l = l')) as [<-|Hne].
  - by rewrite lookup_insert_eq, Hl.
  - by rewrite lookup_insert_ne.
Qed.

Lemma deref_insert_fresh_union (h : Heap) l (c : FieldMap) f :
  h !! l = None → deref (<[l := c]> h) f ∪ c = deref h f ∪ c.
Proof.
  intros Hl. destruct f as [l'|]; simpl; [|done].
  destruct (decide (l = l')) as [<-|Hne].
  - rewrite lookup_insert_eq, Hl. simpl.
    by rewrite (idemp_L (∪)), (left_id_L ∅ (∪)).
  - by rewrite lookup_insert_ne.
Qed.

(** ** Field chaining *)

(** What [WithFields] does to the state: one new map object, filled with
    the parent's entries and then with the argument's. *)
Lemma Entry_WithFields_run entry fields s :
  Entry_WithFields entry fields s
  = (Return (mkEntry (Entry_Logger entry) (Some (fresh (dom (heap s))))),
     set_heap (<[fresh (dom (heap s)) :=
                   deref (heap s) fields ∪ deref (heap s) (Entry_Data entry)]>
                 (heap s)) s).
Proof.
  unfold Entry_WithFields.
  pose proof (fresh_loc_None (heap s)) as Hl.
  set (l := fresh (dom (heap s))) in *.
  erewrite bind_Return; last by reflexivity.
  erewrite bind_Return; last first.
  { apply copy_into_run. simpl. apply lookup_insert_eq. }
  erewrite bind_Return; last first.
  { apply copy_into_run. simpl. apply lookup_insert_eq. }
  unfold ret. simpl. f_equal.
  rewrite !insert_insert_eq, (right_id_L ∅ (∪)).
  rewrite deref_insert_fresh_empty by done.
  by rewrite deref_insert_fresh_union by done.
Qed.

(** What [WithField] does to the state: the map literal [Fields{key: value}]
    and the map object of the new entry. *)
Lemma Entry_WithField_run entry key value s :
  let lit := fresh (dom (heap s)) in
  let h1 := <[lit := ({[key := value]} : FieldMap)]> (heap s) in
  let l := fresh (dom h1) in
  Entry_WithField entry key value s
  = (Return (mkEntry (Entry_Logger entry) (Some l)),
     set_heap (<[l := <[key := value]> (deref h1 (Entry_Data entry))]> h1) s).
Proof.
  intros lit h1 l. unfold Entry_WithField.
  erewrite bind_Return; last by reflexivity.
  erewrite bind_Return; last first.
  { unfold map_assign. simpl. by rewrite lookup_insert_eq. }
  rewrite Entry_WithFields_run. simpl.
  rewrite insert_insert_eq, insert_empty.
  fold lit. fold h1. fold l. unfold set_heap; simpl. do 3 f_equal.
  unfold h1 at 1. rewrite lookup_insert_eq. simpl.
  by rewrite insert_union_singleton_l.
Qed.

Lemma derived_deref E s new E' s' f :
  derived E s new E' s' → valid_ref (heap s) f →
  deref (heap s') f = deref (heap s) f ∧ valid_ref (heap s') f.
Proof.
  intros (_ & _ & Hold & _) Hv. destruct f as [l|]; simpl in *; [|done].
  rewrite (Hold l Hv). done.
Qed.

Lemma Entry_WithFields_derived E F s :
  ∃ E' s', Entry_WithFields E F s = (Return E', s') ∧
           derived E s (deref (heap s) F) E' s'.
Proof.
  eexists _, _. split; [apply Entry_WithFields_run|].
  pose proof (fresh_loc_None (heap s)) as Hl.
  set (l := fresh (dom (heap s))) in *.
  split; [done|]. split; [|split].
  - exists l. simpl. by rewrite lookup_insert_eq.
  - intros l' [c Hc]. simpl. rewrite lookup_insert_ne; [done|congruence].
  - done.
Qed.

Lemma Entry_WithField_derived E key value s :
  valid_ref (heap s) (Entry_Data E) →
  ∃ E' s', Entry_WithField E key value s = (Return E', s') ∧
           derived E s {[key := value]} E' s'.
Proof.
  intros Hv. eexists _, _. split; [apply Entry_WithField_run|].
  pose proof (fresh_loc_None (heap s)) as Hlit.
  set (lit := fresh (dom (heap s))) in *.
  set (h1 := <[lit := ({[key := value]} : FieldMap)]> (heap s)).
  pose proof (fresh_loc_None h1) as Hl.
  set (l := fresh (dom h1)) in *.
  assert (l ≠ lit) as Hne.
  { intros ->. unfold h1 in Hl. by rewrite lookup_insert_eq in Hl. }
  split; [done|]. split; [|split].
  - exists l. simpl. split; [done|]. split.
    + unfold h1 in Hl. by rewrite lookup_insert_ne in Hl.
    + rewrite lookup_insert_eq. f_equal.
      unfold h1. rewrite deref_insert_valid by done.
      by rewrite insert_union_singleton_l.
  - intros l' [c Hc]. simpl.
    rewrite lookup_insert_ne.
    + unfold h1. rewrite lookup_insert_ne; [done|congruence].
    + intros ->. unfold h1 in Hl. rewrite lookup_insert_ne in Hl by done.
      congruence.
  - done.
Qed.

(** C1. [E.WithFields(F)] returns a new entry (same logger, a map object
    that did not exist before) whose Data is the union of [E]'s entries
    and [F]'s entries, [F]'s entries winning key collisions; the Data of
    [E], the map [F] and every other existing map are left as they were.
    [WithField] does the same with the single pair [key: value].  For any
    record [R], [R.WithField("a",1)] followed by [R.WithField("a",2)]
    yields two records with distinct map objects, the first with a=1, the
    second with a=2, each otherwise equal to [R]'s fields, while [R]'s
    own fields are unaffected. *)
Theorem WithFields_union_parent_unchanged (E : Entry) (F : Fields) (s : State) :
  valid_ref (heap s) (Entry_Data E) →
  valid_ref (heap s) F →
  (∃ E' s',
      Entry_WithFields E F s = (Return E', s') ∧
      derived E s (deref (heap s) F) E' s' ∧
      deref (heap s') (Entry_Data E')
        = deref (heap s) F ∪ deref (heap s) (Entry_Data E) ∧
      (∀ k, deref (heap s') (Entry_Data E') !! k
            = match deref (heap s) F !! k with
              | Some v => Some v
              | None => deref (heap s) (Entry_Data E) !! k
              end) ∧
      deref (heap s') (Entry_Data E) = deref (heap s) (Entry_Data E) ∧
      deref (heap s') F = deref (heap s) F) ∧
  (∀ key value, ∃ E' s',
      Entry_WithField E key value s = (Return E', s') ∧
      derived E s {[key := value]} E' s' ∧
      deref (heap s') (Entry_Data E')
        = <[key := value]> (deref (heap s) (Entry_Data E)) ∧
      deref (heap s') (Entry_Data E) = deref (heap s) (Entry_Data E)) ∧
  (∃ R1 s1 R2 s2,
      Entry_WithField E "a" (VInt 1) s = (Return R1, s1) ∧
      Entry_WithField E "a" (VInt 2) s1 = (Return R2, s2) ∧
      Entry_Data R1 ≠ Entry_Data R2 ∧
      deref (heap s2) (Entry_Data R1)
        = <["a" := VInt 1]> (deref (heap s) (Entry_Data E)) ∧
      deref (heap s2) (Entry_Data R2)
        = <["a" := VInt 2]> (deref (heap s) (Entry_Data E)) ∧
      deref (heap s2) (Entry_Data E) = deref (heap s) (Entry_Data E)).
Proof.
  intros HvE HvF.
  assert (∀ (E0 : Entry) s0 new E' s',
             derived E0 s0 new E' s' →
             deref (heap s') (Entry_Data E') = new ∪ deref (heap s0) (Entry_Data E0))
    as Hnew.
  { intros E0 s0 new E' s' (_ & (l & -> & _ & Hl) & _). simpl. by rewrite Hl. }
  split; [|split].
  - destruct (Entry_WithFields_derived E F s) as (E' & s' & Hrun & Hd).
    exists E', s'. split; [done|]. split; [done|].
    pose proof (Hnew _ _ _ _ _ Hd) as HE'.
    split; [done|]. split.
    { intros k. rewrite HE', lookup_union.
      destruct (deref (heap s) F !! k), (deref (heap s) (Entry_Data E) !! k); done. }
    split; by eapply derived_deref.
  - intros key value.
    destruct (Entry_WithField_derived E key value s HvE) as (E' & s' & Hrun & Hd).
    exists E', s'. split; [done|]. split; [done|].
    split.
    + rewrite (Hnew _ _ _ _ _ Hd). by rewrite insert_union_singleton_l.
    + by eapply derived_deref.
  - destruct (Entry_WithField_derived E "a" (VInt 1) s HvE)
      as (R1 & s1 & Hrun1 & Hd1).
    destruct (derived_deref _ _ _ _ _ _ Hd1 HvE) as [HE1 HvE1].
    destruct (Entry_WithField_derived E "a" (VInt 2) s1 HvE1)
      as (R2 & s2 & Hrun2 & Hd2).
    exists R1, s1, R2, s2. split; [done|]. split; [done|].
    pose proof (Hnew _ _ _ _ _ Hd1) as HR1.
    pose proof (Hnew _ _ _ _ _ Hd2) as HR2.
    destruct Hd1 as (_ & (l1 & Hl1 & Hfresh1 & Hnew1) & _ & _).
    assert (valid_ref (heap s1) (Entry_Data R1)) as HvR1.
    { rewrite Hl1. simpl. eauto. }
    destruct (derived_deref _ _ _ _ _ _ Hd2 HvR1) as [HR1' _].
    destruct (derived_deref _ _ _ _ _ _ Hd2 HvE1) as [HE2 _].
    destruct Hd2 as (_ & (l2 & Hl2 & Hfresh2 & Hnew2) & _ & _).
    split.
    { rewrite Hl1, Hl2. intros [= ->]. congruence. }
    split.
    { rewrite HR1', HR1. by rewrite insert_union_singleton_l. }
    split.
    { rewrite HR2, HE1. by rewrite insert_union_singleton_l. }
    by rewrite HE2.
Qed.

Lemma WithFields_union_parent_unchanged_witness :
  valid_ref (heap sample_state) (Entry_Data sample_entry) ∧
  valid_ref (heap sample_state) (Some 2%positive) ∧
  ∃ E' s',
    Entry_WithFields sample_entry (Some 2%positive) sample_state = (Return E', s') ∧
    deref (heap s') (Entry_Data E')
      = {[ "user" := VString "ann"; "a" := VInt 7; "req" := VInt 42 ]} ∧
    deref (heap s') (Entry_Data sample_entry)
      = {[ "user" := VString "ann"; "a" := VInt 0 ]}.
Proof.
  assert (valid_ref (heap sample_state) (Entry_Data sample_entry)) as H1.
  { vm_compute. eauto. }
  assert (valid_ref (heap sample_state) (Some 2%positive)) as H2.
  { vm_compute. eauto. }
  split; [exact H1|]. split; [exact H2|].
  destruct (WithFields_union_parent_unchanged sample_entry (Some 2%positive)
              sample_state H1 H2) as [(E' & s' & Hrun & _ & Hu & _ & Hp & _) _].
  exists E', s'. split; [exact Hrun|]. split.
  - rewrite Hu. by vm_compute.
  - rewrite Hp. by vm_compute.
Defined.

(** ** [With]: the index loop against the pairing of the specification *)

Lemma list_pair_ind {A} (P : list A → Prop) :
  P [] → (∀ k, P [k]) → (∀ k v rest, P rest → P (k :: v :: rest)) →
  ∀ l, P l.
Proof.
  intros Hnil Hone Hstep l.
  assert (P l ∧ ∀ x, P (x :: l)) as [H _]; [|done].
  induction l as [|a l [IH1 IH2]]; split; auto.
Qed.

Lemma mod2_SS n : S (S n) mod 2 = n mod 2.
Proof.
  replace (S (S n)) with (n + 1 * 2) by lia. by rewrite Nat.Div0.mod_add.
Qed.

(** The loop over an even-length stretch of the arguments assigns its
    pairs in order. *)
Lemma With_loop_run fuel l (c : FieldMap) (pre rest : list Value) s :
  heap s !! l = Some c →
  length rest mod 2 = 0 →
  length rest ≤ 2 * fuel →
  ∀ tail,
  With_loop fuel (Some l) (pre ++ rest ++ tail)
    (length pre + length rest) (length pre) s
  = (Return tt,
     set_heap (<[l := foldl assign1 c (spec_With_pairs rest)]> (heap s)) s).
Proof.
  revert c pre rest s.
  induction fuel as [|fuel IH]; intros c pre rest s Hl Heven Hfuel tail.
  - destruct rest; [|simpl in Hfuel; lia].
    simpl. rewrite Nat.add_0_r.
    destruct (Nat.ltb_spec (length pre) (length pre)); [lia|].
    unfold ret. by rewrite insert_id, set_heap_id.
  - destruct rest as [|k [|v rest]].
    + simpl. rewrite Nat.add_0_r.
      destruct (Nat.ltb_spec (length pre) (length pre)); [lia|].
      unfold ret. by rewrite insert_id, set_heap_id.
    + by simpl in Heven.
    + cbn [With_loop].
      destruct (Nat.ltb_spec (length pre) (length pre + length (k :: v :: rest)));
        [|simpl in *; lia].
      erewrite bind_Return; last first.
      { unfold index. rewrite lookup_app_r by lia.
        rewrite Nat.sub_diag. simpl. reflexivity. }
      erewrite bind_Return; last first.
      { unfold index. rewrite lookup_app_r by lia.
        replace (length pre + 1 - length pre) with 1 by lia.
        simpl. reflexivity. }
      erewrite bind_Return; last first.
      { unfold map_assign. by rewrite Hl. }
      specialize (IH (<[stringify k := v]> c) (pre ++ [k; v]) rest
                    (set_heap (<[l := <[stringify k := v]> c]> (heap s)) s)).
      rewrite length_app in IH. simpl in IH.
      replace (length pre + length (k :: v :: rest))
        with (length pre + 2 + length rest) by (simpl; lia).
      replace ((pre ++ (k :: v :: rest) ++ tail))
        with ((pre ++ [k; v]) ++ rest ++ tail) by (by rewrite <- app_assoc).
      rewrite IH.
      * simpl. by rewrite insert_insert_eq.
      * apply lookup_insert_eq.
      * change (length (k :: v :: rest)) with (S (S (length rest))) in Heven.
        by rewrite mod2_SS in Heven.
      * simpl in Hfuel. lia.
Qed.

(** Splitting the trailing arguments into the even-length prefix the loop
    consumes and the unpaired key, if any. *)
Lemma extras_split (extras : list Value) :
  (length extras mod 2 = 0 ∧
   spec_With_pairs extras = spec_With_pairs extras) ∨
  (∃ front k, extras = front ++ [k] ∧ length front mod 2 = 0 ∧
              length extras mod 2 = 1 ∧
              spec_With_pairs extras = spec_With_pairs front ++ [(stringify k, VNil)]).
Proof.
  induction extras as [| k | k v rest IH] using list_pair_ind.
  - by left.
  - right. exists [], k. done.
  - destruct IH as [[He _]|(front & k0 & -> & He & Ho & Hp)].
    + left. split; [|done].
      change (length (k :: v :: rest)) with (S (S (length rest))).
      by rewrite mod2_SS.
    + right. exists (k :: v :: front), k0. split; [done|].
      split; [|split].
      * change (length (k :: v :: front)) with (S (S (length front))).
        by rewrite mod2_SS.
      * change (length (k :: v :: front ++ [k0]))
          with (S (S (length (front ++ [k0])))).
        by rewrite mod2_SS.
      * simpl. by rewrite Hp.
Qed.

Lemma With_fields_unfold key value extras :
  With_fields key value extras
  = foldl assign1 {[key := value]} (spec_With_pairs extras).
Proof.
  unfold With_fields. simpl. by f_equal.
Qed.

Lemma Entry_With_run entry key value extras s :
  let lit := fresh (dom (heap s)) in
  let h1 := <[lit := With_fields key value extras]> (heap s) in
  let l := fresh (dom h1) in
  Entry_With entry key value extras s
  = (Return (mkEntry (Entry_Logger entry) (Some l)),
     set_heap (<[l := With_fields key value extras ∪ deref h1 (Entry_Data entry)]> h1) s).
Proof.
  intros lit h1 l. unfold Entry_With.
  erewrite bind_Return; last by reflexivity.
  erewrite bind_Return; last first.
  { unfold map_assign. simpl. by rewrite lookup_insert_eq. }
  simpl heap. rewrite insert_insert_eq, insert_empty. fold lit.
  assert (∀ s1 : State,
             heap s1 = h1 → s1 = set_heap h1 s →
             Entry_WithFields entry (Some lit) s1
             = (Return (mkEntry (Entry_Logger entry) (Some l)),
                set_heap (<[l := With_fields key value extras
                                  ∪ deref h1 (Entry_Data entry)]> h1) s)) as Hfin.
  { intros s1 Hh ->. rewrite Entry_WithFields_run. simpl. fold l.
    replace (h1 !! lit) with (Some (With_fields key value extras))
      by (unfold h1; by rewrite lookup_insert_eq).
    done. }
  destruct (extras_split extras) as [[He _]|(front & k & Hex & He & Ho & Hp)].
  - rewrite He. simpl negb. cbv iota.
    pose proof (With_loop_run (length extras) lit {[key := value]} [] extras
                  (set_heap (<[lit := {[key := value]}]> (heap s)) s)) as Hloop.
    simpl in Hloop. erewrite bind_Return; last first.
    { etransitivity; [|apply (Hloop ltac:(apply lookup_insert_eq) He ltac:(lia) [])].
      by rewrite app_nil_r. }
    rewrite Nat.ltb_irrefl.
    erewrite bind_Return; last by reflexivity.
    rewrite insert_insert_eq, <- With_fields_unfold.
    by apply Hfin.
  - rewrite Ho. simpl negb. cbv iota.
    pose proof (With_loop_run (length extras) lit {[key := value]} [] front
                  (set_heap (<[lit := {[key := value]}]> (heap s)) s)) as Hloop.
    assert (length extras = length front + 1) as Hlen.
    { rewrite Hex, length_app. simpl. lia. }
    replace (length extras - 1) with (length front) by lia.
    simpl in Hloop. erewrite bind_Return; last first.
    { rewrite Hex at 2.
      apply (Hloop ltac:(apply lookup_insert_eq) He ltac:(lia) [k]). }
    destruct (Nat.ltb_spec (length front) (length extras)); [|lia].
    erewrite bind_Return; last first.
    { erewrite bind_Return; last first.
      { unfold index. rewrite Hex, lookup_app_r by lia. rewrite Nat.sub_diag.
        simpl. reflexivity. }
      unfold map_assign. simpl. by rewrite lookup_insert_eq. }
    simpl heap. rewrite !insert_insert_eq.
    assert (<[stringify k := VNil]> (foldl assign1 {[key := value]} (spec_With_pairs front))
            = With_fields key value extras) as Heq.
    { rewrite With_fields_unfold, Hp, foldl_app. done. }
    rewrite Heq. by apply Hfin.
Qed.

(** Equality of two maps written with inserts and singletons, by lookups. *)
Ltac solve_map_eq :=
  apply map_eq; intros ?;
  repeat (rewrite lookup_insert || rewrite lookup_singleton || rewrite lookup_empty);
  repeat case_decide; subst; congruence.

Lemma foldl_assign1_other (ps : list (string * Value)) (c : FieldMap) k :
  (∀ kv, kv ∈ ps → kv.1 ≠ k) → foldl assign1 c ps !! k = c !! k.
Proof.
  revert c. induction ps as [|[k0 v0] ps IH]; intros c Hne; simpl; [done|].
  rewrite IH.
  - unfold assign1; simpl. apply lookup_insert_ne.
    apply (Hne (k0, v0)). by left.
  - intros kv Hin. apply Hne. by right.
Qed.

(** The last assignment to a key is the one that stays. *)
Lemma foldl_assign1_last (ps : list (string * Value)) (c : FieldMap) i k v :
  ps !! i = Some (k, v) →
  (∀ j kv, i < j → ps !! j = Some kv → kv.1 ≠ k) →
  foldl assign1 c ps !! k = Some v.
Proof.
  revert c i. induction ps as [|[k0 v0] ps IH]; intros c i Hi Hlater; [done|].
  destruct i as [|i]; simpl in *.
  - injection Hi as -> ->. rewrite foldl_assign1_other.
    + unfold assign1; simpl. apply lookup_insert_eq.
    + intros kv [j Hj]%list_elem_of_lookup. apply (Hlater (S j)); [lia|done].
  - apply (IH _ i); [done|]. intros j kv Hlt Hj. apply (Hlater (S j)); [lia|done].
Qed.

Lemma foldl_assign1_is_Some (ps : list (string * Value)) (c : FieldMap) k :
  k ∈ ps.*1 → is_Some (foldl assign1 c ps !! k).
Proof.
  revert c. induction ps as [|[k0 v0] ps IH]; intros c Hin.
  - by apply elem_of_nil in Hin.
  - simpl. destruct (decide (k ∈ ps.*1)) as [Hk|Hno].
    + by apply IH.
    + rewrite foldl_assign1_other.
      * simpl in Hin. apply elem_of_cons in Hin as [->|Hin]; [|done].
        unfold assign1; simpl. rewrite lookup_insert_eq. eauto.
      * intros kv Hin1 <-. apply Hno. apply list_elem_of_fmap. eauto.
Qed.

Lemma spec_With_pairs_lookup (extras : list Value) i k :
  extras !! (2 * i) = Some k →
  spec_With_pairs extras !! i
  = Some (stringify k, default VNil (extras !! (2 * i + 1))).
Proof.
  revert i. induction extras as [| k0 | k0 v0 rest IH] using list_pair_ind;
    intros i Hi.
  - done.
  - destruct i as [|i]; simpl in *; [by injection Hi as ->|].
    replace (i + S (i + 0)) with (S (2 * i)) in Hi by lia. done.
  - destruct i as [|i]; simpl in *; [by injection Hi as ->|].
    replace (i + S (i + 0)) with (S (2 * i)) in Hi by lia. simpl in Hi.
    rewrite (IH i Hi).
    replace (i + S (i + 0) + 1) with (S (2 * i + 1)) by lia. done.
Qed.

Lemma spec_With_pairs_key (extras : list Value) j kv :
  spec_With_pairs extras !! j = Some kv →
  ∃ k, extras !! (2 * j) = Some k ∧ kv.1 = stringify k.
Proof.
  revert j. induction extras as [| k0 | k0 v0 rest IH] using list_pair_ind;
    intros j Hj.
  - done.
  - destruct j as [|j]; simpl in *; [|done].
    injection Hj as <-. eauto.
  - destruct j as [|j]; simpl in *.
    + injection Hj as <-. eauto.
    + destruct (IH j Hj) as (k & Hk & Hkv). exists k. split; [|done].
      replace (j + S (j + 0)) with (S (2 * j)) by lia. done.
Qed.

Lemma Entry_With_derived E key value extras s :
  valid_ref (heap s) (Entry_Data E) →
  ∃ E' s', Entry_With E key value extras s = (Return E', s') ∧
           derived E s (With_fields key value extras) E' s'.
Proof.
  intros Hv. eexists _, _. split; [apply Entry_With_run|].
  pose proof (fresh_loc_None (heap s)) as Hlit.
  set (lit := fresh (dom (heap s))) in *.
  set (h1 := <[lit := With_fields key value extras]> (heap s)).
  pose proof (fresh_loc_None h1) as Hl.
  set (l := fresh (dom h1)) in *.
  assert (l ≠ lit) as Hne.
  { intros ->. unfold h1 in Hl. by rewrite lookup_insert_eq in Hl. }
  split; [done|]. split; [|split].
  - exists l. simpl. split; [done|]. split.
    + unfold h1 in Hl. by rewrite lookup_insert_ne in Hl.
    + rewrite lookup_insert_eq. f_equal.
      unfold h1. by rewrite deref_insert_valid by done.
  - intros l' [c Hc]. simpl.
    rewrite lookup_insert_ne.
    + unfold h1. rewrite lookup_insert_ne; [done|congruence].
    + intros ->. unfold h1 in Hl. rewrite lookup_insert_ne in Hl by done.
      congruence.
  - done.
Qed.

(** C8. [With(key, value, extras...)] returns a new entry whose added
    fields are built as follows.  The leading pair is inserted.  The
    trailing arguments are consumed as key/value pairs, each key in its
    display-string form ([stringify]); as in any sequence of map
    assignments, a pair stays unless a later pair has the same key.  When
    the trailing sequence has odd length its final unpaired key is
    inserted with a nil value.  The index loop of the source never runs
    out of range and agrees with the pairing of the specification.
    [With("k", v, "x")] adds exactly k=v and x=nil. *)
Theorem With_pairs_and_unpaired_key (E : Entry) (key : string) (value : Value)
    (extras : list Value) (s : State) :
  valid_ref (heap s) (Entry_Data E) →
  (∃ E' s' (fields : FieldMap),
      Entry_With E key value extras s = (Return E', s') ∧
      derived E s fields E' s' ∧
      fields = With_fields key value extras ∧
      is_Some (fields !! key) ∧
      ((∀ i k, extras !! (2 * i) = Some k → stringify k ≠ key) →
       fields !! key = Some value) ∧
      (∀ i k v,
          extras !! (2 * i) = Some k → extras !! (2 * i + 1) = Some v →
          is_Some (fields !! stringify k) ∧
          ((∀ j k', i < j → extras !! (2 * j) = Some k' →
                    stringify k' ≠ stringify k) →
           fields !! stringify k = Some v)) ∧
      (∀ i k,
          extras !! (2 * i) = Some k → extras !! (2 * i + 1) = None →
          fields !! stringify k = Some VNil)) ∧
  (∃ E' s',
      Entry_With E "k" value [VString "x"] s = (Return E', s') ∧
      derived E s {[ "k" := value; "x" := VNil ]} E' s') ∧
  (∃ E' s',
      Entry_With E "k" value [VInt 42; VBool true; VNil] s = (Return E', s') ∧
      derived E s {[ "k" := value; "42" := VBool true; "<nil>" := VNil ]} E' s').
Proof.
  intros Hv. split; [|split].
  - destruct (Entry_With_derived E key value extras s Hv) as (E' & s' & Hrun & Hd).
    exists E', s', (With_fields key value extras).
    split; [done|]. split; [done|]. split; [done|].
    unfold With_fields.
    split; [|split; [|split]].
    + apply foldl_assign1_is_Some. simpl. by left.
    + intros Hne. apply (foldl_assign1_last _ _ 0); [done|].
      intros [|j] kv Hlt Hj; [lia|]. simpl in Hj.
      destruct (spec_With_pairs_key _ _ _ Hj) as (k & Hk & ->).
      by eapply Hne.
    + intros i k v Hk Hval.
      pose proof (spec_With_pairs_lookup _ _ _ Hk) as Hp. rewrite Hval in Hp.
      simpl in Hp. split.
      * apply foldl_assign1_is_Some. simpl. right.
        apply list_elem_of_fmap. exists (stringify k, v). split; [done|].
        by eapply list_elem_of_lookup_2.
      * intros Hlater. apply (foldl_assign1_last _ _ (S i)); [done|].
        intros [|j] kv Hlt Hj; [lia|]. simpl in Hj.
        destruct (spec_With_pairs_key _ _ _ Hj) as (k' & Hk' & ->).
        apply (Hlater j); [lia|done].
    + intros i k Hk Hnone.
      pose proof (spec_With_pairs_lookup _ _ _ Hk) as Hp. rewrite Hnone in Hp.
      simpl in Hp. apply (foldl_assign1_last _ _ (S i)); [done|].
      intros [|j] kv Hlt Hj; [lia|]. simpl in Hj.
      destruct (spec_With_pairs_key _ _ _ Hj) as (k' & Hk' & _).
      apply lookup_lt_Some in Hk'. apply lookup_ge_None in Hnone. lia.
  - destruct (Entry_With_derived E "k" value [VString "x"] s Hv)
      as (E' & s' & Hrun & Hd).
    exists E', s'. split; [done|].
    replace ({[ "k" := value; "x" := VNil ]} : FieldMap)
      with (With_fields "k" value [VString "x"]); [done|].
    unfold With_fields, assign1. simpl. rewrite insert_empty.
    solve_map_eq.
  - destruct (Entry_With_derived E "k" value [VInt 42; VBool true; VNil] s Hv)
      as (E' & s' & Hrun & Hd).
    exists E', s'. split; [done|].
    replace ({[ "k" := value; "42" := VBool true; "<nil>" := VNil ]} : FieldMap)
      with (With_fields "k" value [VInt 42; VBool true; VNil]); [done|].
    unfold With_fields, assign1. simpl. rewrite insert_empty.
    replace (pretty 42%Z) with "42" by (by vm_compute).
    solve_map_eq.
Qed.

Lemma With_pairs_and_unpaired_key_witness :
  valid_ref (heap sample_state) (Entry_Data sample_entry) ∧
  ∃ E' s',
    Entry_With sample_entry "k" (VInt 5) [VString "x"] sample_state
      = (Return E', s') ∧
    deref (heap s') (Entry_Data E')
      = {[ "k" := VInt 5; "x" := VNil; "user" := VString "ann"; "a" := VInt 0 ]}.
Proof.
  assert (valid_ref (heap sample_state) (Entry_Data sample_entry)) as H1.
  { vm_compute. eauto. }
  split; [exact H1|].
  destruct (With_pairs_and_unpaired_key sample_entry "k" (VInt 5) [VString "x"]
              sample_state H1) as (_ & (E' & s' & Hrun & Hd) & _).
  exists E', s'. split; [exact Hrun|].
  destruct Hd as (_ & (l & -> & _ & Hl) & _). simpl. rewrite Hl. simpl.
  by vm_compute.
Defined.

(** ** [WithError] *)

(** Chaining a map object that was allocated just before the call, as
    [WithField], [With] and [WithError] do with their map literals. *)
Lemma WithFields_of_literal E s (frag : FieldMap) :
  valid_ref (heap s) (Entry_Data E) →
  ∃ E' s',
    Entry_WithFields E (Some (fresh (dom (heap s))))
      (set_heap (<[fresh (dom (heap s)) := frag]> (heap s)) s) = (Return E', s') ∧
    derived E s frag E' s'.
Proof.
  intros Hv. eexists _, _. split; [apply Entry_WithFields_run|].
  pose proof (fresh_loc_None (heap s)) as Hlit.
  set (lit := fresh (dom (heap s))) in *. simpl.
  set (h1 := <[lit := frag]> (heap s)).
  pose proof (fresh_loc_None h1) as Hl.
  set (l := fresh (dom h1)) in *.
  assert (l ≠ lit) as Hne.
  { intros ->. unfold h1 in Hl. by rewrite lookup_insert_eq in Hl. }
  split; [done|]. split; [|split].
  - exists l. simpl. split; [done|]. split.
    + unfold h1 in Hl. by rewrite lookup_insert_ne in Hl.
    + rewrite lookup_insert_eq. f_equal.
      replace (h1 !! lit) with (Some frag)
        by (unfold h1; by rewrite lookup_insert_eq).
      unfold h1. by rewrite deref_insert_valid by done.
  - intros l' [c Hc]. simpl.
    rewrite lookup_insert_ne.
    + unfold h1. rewrite lookup_insert_ne; [done|congruence].
    + intros ->. unfold h1 in Hl. rewrite lookup_insert_ne in Hl by done.
      congruence.
  - done.
Qed.

Lemma WithError_fields_structured_run r s :
  WithError_fields (Some (StructuredError r)) s
  = (Return (Some (fresh (dom (heap s)))),
     set_heap (<[fresh (dom (heap s)) :=
                   deref (heap s) (Error_Fields r) ∪ reserved_fields r]> (heap s)) s).
Proof.
  unfold WithError_fields.
  pose proof (fresh_loc_None (heap s)) as Hl.
  set (l := fresh (dom (heap s))) in *.
  erewrite bind_Return; last by reflexivity.
  erewrite bind_Return; last first.
  { unfold map_assign. simpl. by rewrite lookup_insert_eq. }
  erewrite bind_Return; last first.
  { unfold map_assign. simpl. by rewrite lookup_insert_eq. }
  simpl heap. rewrite !insert_insert_eq.
  assert (∀ (c : FieldMap) s1,
             s1 = set_heap (<[l := c]> (heap s)) s →
             bind (copy_into (Some l) (Error_Fields r)) (λ _, ret (Some l)) s1
             = (Return (Some l),
                set_heap (<[l := deref (heap s) (Error_Fields r) ∪ c]> (heap s)) s))
    as Hcopy.
  { intros c s1 ->. erewrite bind_Return; last first.
    { apply copy_into_run. simpl. apply lookup_insert_eq. }
    unfold ret. simpl. rewrite insert_insert_eq.
    by rewrite deref_insert_fresh_union by done. }
  unfold reserved_fields. destruct (decide (Error_Name r = "")) as [Hn|Hn].
  - rewrite decide_False by (by intros ?).
    erewrite bind_Return; last by reflexivity.
    etransitivity; [apply Hcopy; reflexivity|]. by do 3 f_equal.
  - rewrite decide_True by done.
    erewrite bind_Return; last first.
    { unfold map_assign. simpl. by rewrite lookup_insert_eq. }
    simpl heap. rewrite !insert_insert_eq.
    etransitivity; [apply Hcopy; reflexivity|]. by do 3 f_equal.
Qed.

Lemma WithError_fields_other_run err s :
  is_structured err = false →
  WithError_fields err s
  = (Return (Some (fresh (dom (heap s)))),
     set_heap (<[fresh (dom (heap s)) :=
                   {[ ErrorKey := Value_of_error err;
                      StacktraceKey :=
                        VString (render_stack
                                   (drop 2 (Stack_frame :: callstack s))) ]}]>
                 (heap s)) s).
Proof.
  intros Hs.
  assert (WithError_fields err
          = (trace <- errors_Stack 2 ;;
             fields <- make_Fields ;;
             map_assign (Some fields) ErrorKey (Value_of_error err) ;;;
             map_assign (Some fields) StacktraceKey (VString trace) ;;;
             ret (Some fields))) as ->.
  { by destruct err as [[]|]. }
  erewrite bind_Return; last by reflexivity.
  erewrite bind_Return; last by reflexivity.
  erewrite bind_Return; last first.
  { unfold map_assign. simpl. by rewrite lookup_insert_eq. }
  erewrite bind_Return; last first.
  { unfold map_assign. simpl. by rewrite lookup_insert_eq. }
  unfold ret. simpl. rewrite !insert_insert_eq. by do 3 f_equal.
Qed.

(** A chaining method that runs in a frame of its own is a chaining call
    all the same: the frame is gone when it returns. *)
Lemma call_frame_derived fn (body : M Entry) E s new E' s1 :
  body (set_callstack (fn :: callstack s) s) = (Return E', s1) →
  derived E (set_callstack (fn :: callstack s) s) new E' s1 →
  call_frame fn body s = (Return E', set_callstack (callstack s) s1) ∧
  derived E s new E' (set_callstack (callstack s) s1).
Proof.
  intros Hrun (Hlg & Hnew & Hold & Hs1). split.
  - unfold call_frame. by rewrite Hrun.
  - split; [done|]. split; [done|]. split; [done|].
    rewrite Hs1. by destruct s.
Qed.

Lemma Entry_WithError_derived E err s :
  valid_ref (heap s) (Entry_Data E) →
  ∃ E' s',
    Entry_WithError E err s = (Return E', s') ∧
    derived E s
      (match err with
       | Some (StructuredError r) =>
           deref (heap s) (Error_Fields r) ∪ reserved_fields r
       | _ => {[ ErrorKey := Value_of_error err;
                 StacktraceKey := VString (render_stack (callstack s)) ]}
       end) E' s'.
Proof.
  intros Hv. unfold Entry_WithError.
  set (s0 := set_callstack (WithError_frame :: callstack s) s).
  assert (valid_ref (heap s0) (Entry_Data E)) as Hv0 by done.
  destruct (is_structured err) eqn:Hs.
  - destruct err as [[r|]|]; try done.
    destruct (WithFields_of_literal E s0
                (deref (heap s0) (Error_Fields r) ∪ reserved_fields r) Hv0)
      as (E' & s1 & Hrun & Hd).
    exists E', (set_callstack (callstack s) s1).
    apply (call_frame_derived WithError_frame _ E s); [|exact Hd].
    erewrite bind_Return; [exact Hrun|].
    apply WithError_fields_structured_run.
  - destruct (WithFields_of_literal E s0
                {[ ErrorKey := Value_of_error err;
                   StacktraceKey := VString (render_stack (callstack s)) ]} Hv0)
      as (E' & s1 & Hrun & Hd).
    exists E', (set_callstack (callstack s) s1).
    assert (call_frame WithError_frame
              (fields <- WithError_fields err ;; Entry_WithFields E fields) s
            = (Return E', set_callstack (callstack s) s1) ∧
            derived E s
              {[ ErrorKey := Value_of_error err;
                 StacktraceKey := VString (render_stack (callstack s)) ]}
              E' (set_callstack (callstack s) s1)) as [Hcall Hder].
    { apply (call_frame_derived WithError_frame _ E s); [|exact Hd].
      erewrite bind_Return; [exact Hrun|].
      by rewrite WithError_fields_other_run. }
    split; [done|]. by destruct err as [[r|]|].
Qed.

Lemma reserved_fields_lookup r k :
  reserved_fields r !! k
  = if decide (k = ErrorKey) then Some (VError (StructuredError r))
    else if decide (k = StacktraceKey) then Some (VString (Error_Stack r))
    else if decide (k = ModuleNameKey) then
      (if decide (Error_Name r = "") then None
       else Some (VString (Error_Name r)))
    else None.
Proof.
  unfold reserved_fields.
  destruct (decide (Error_Name r = ""));
    repeat (rewrite lookup_insert || rewrite lookup_singleton);
    repeat case_decide; subst; done.
Qed.

(** C5, the claim as stated fails: a structured error whose attached
    fields use the keys "error", "stacktrace" and "module" yields a
    fragment in which all three reserved keys hold the attached values,
    not the values taken from the error. *)
Lemma attached_fields_overwrite_reserved_keys :
  ∃ fields s',
    WithError_fields (Some (StructuredError shadowing_error)) shadowing_state
      = (Return fields, s') ∧
    deref (heap s') fields !! ErrorKey = Some (VString "shadowed") ∧
    deref (heap s') fields !! StacktraceKey = Some (VString "forged") ∧
    deref (heap s') fields !! ModuleNameKey = Some (VString "other") ∧
    deref (heap s') fields !! ErrorKey
      ≠ Some (VError (StructuredError shadowing_error)) ∧
    deref (heap s') fields !! StacktraceKey
      ≠ Some (VString (Error_Stack shadowing_error)) ∧
    deref (heap s') fields !! ModuleNameKey
      ≠ Some (VString (Error_Name shadowing_error)).
Proof.
  eexists _, _. split; [by vm_compute|].
  repeat split; by vm_compute.
Qed.

(** C5, amended.  For a structured error [WithError] writes the reserved
    keys first, with the values taken from the error, and then lays the
    error's attached fields over them: every attached field is in the
    fragment with its own value, also when its key is a reserved key; a
    reserved key that no attached field uses holds the value taken from
    the error (the module-name key only when the name is not empty). *)
Theorem WithError_attached_fields_take_precedence
    (r : errors_Error) (s : State) :
  ∃ l s' (fragment : FieldMap),
    WithError_fields (Some (StructuredError r)) s = (Return (Some l), s') ∧
    heap s !! l = None ∧
    heap s' !! l = Some fragment ∧
    (∀ k v, deref (heap s) (Error_Fields r) !! k = Some v →
            fragment !! k = Some v) ∧
    (deref (heap s) (Error_Fields r) !! ErrorKey = None →
     fragment !! ErrorKey = Some (VError (StructuredError r))) ∧
    (deref (heap s) (Error_Fields r) !! StacktraceKey = None →
     fragment !! StacktraceKey = Some (VString (Error_Stack r))) ∧
    (deref (heap s) (Error_Fields r) !! ModuleNameKey = None →
     fragment !! ModuleNameKey
     = if decide (Error_Name r = "") then None
       else Some (VString (Error_Name r))).
Proof.
  eexists _, _, _. split; [apply WithError_fields_structured_run|].
  split; [apply fresh_loc_None|]. split; [simpl; apply lookup_insert_eq|].
  split; [|split; [|split]].
  - intros k v Hk. by apply lookup_union_Some_l.
  - intros Hk. rewrite lookup_union_r by done.
    by rewrite reserved_fields_lookup.
  - intros Hk. rewrite lookup_union_r by done.
    by rewrite reserved_fields_lookup.
  - intros Hk. rewrite lookup_union_r by done.
    by rewrite reserved_fields_lookup.
Qed.

(** C7, the claim as stated fails: for a structured error whose attached
    fields carry a "stacktrace" entry, the record [WithError] returns
    holds that entry under the stack-trace key, not the error's own
    captured stack trace. *)
Lemma WithError_own_stack_replaced :
  ∃ E' s',
    Entry_WithError sample_entry (Some (StructuredError restacked_error))
      restacked_state = (Return E', s') ∧
    deref (heap s') (Entry_Data E') !! StacktraceKey
      = Some (VString "user supplied") ∧
    deref (heap s') (Entry_Data E') !! StacktraceKey
      ≠ Some (VString (Error_Stack restacked_error)).
Proof.
  eexists _, _. split; [by vm_compute|].
  split; by vm_compute.
Qed.

(** C7, amended.  [WithError] splits on its input.  For the structured
    error kind the fragment is the error's attached fields laid over the
    reserved keys: the error under the error key, the error's own captured
    stack trace under the stack-trace key, and the error's module name
    under the module-name key only if it is not empty; an attached field
    with one of these keys replaces that value.  For any other error
    value (nil included) the fragment holds exactly the error under the
    error key and, under the stack-trace key, a stack trace captured
    freshly at the point of the [WithError] call, the adapter's own frame
    excluded: it is the text of the caller's stack as it is when
    [WithError] is called, which [errors.Stack(2)] yields while the
    adapter's frame is on top of that stack.  Either fragment is merged
    onto the record as by [WithFields], and the adapter's frame is gone
    when the call returns. *)
Theorem WithError_case_split (E : Entry) (err : error) (s : State) :
  valid_ref (heap s) (Entry_Data E) →
  ∃ E' s',
    Entry_WithError E err s = (Return E', s') ∧
    callstack s' = callstack s ∧
    match err with
    | Some (StructuredError r) =>
        derived E s (deref (heap s) (Error_Fields r) ∪ reserved_fields r) E' s' ∧
        reserved_fields r !! ErrorKey = Some (VError (StructuredError r)) ∧
        reserved_fields r !! StacktraceKey = Some (VString (Error_Stack r)) ∧
        reserved_fields r !! ModuleNameKey
          = (if decide (Error_Name r = "") then None
             else Some (VString (Error_Name r))) ∧
        (∀ k, k ≠ ErrorKey → k ≠ StacktraceKey → k ≠ ModuleNameKey →
              reserved_fields r !! k = None)
    | _ =>
        ∃ captured,
          derived E s {[ ErrorKey := Value_of_error err;
                         StacktraceKey := VString (render_stack captured) ]}
            E' s' ∧
          captured = callstack s ∧
          drop 2 (Stack_frame :: WithError_frame :: callstack s) = captured ∧
          errors_Stack 2 (set_callstack (WithError_frame :: callstack s) s)
            = (Return (render_stack captured),
               set_callstack (WithError_frame :: callstack s) s)
    end.
Proof.
  intros Hv.
  destruct (Entry_WithError_derived E err s Hv) as (E' & s' & Hrun & Hd).
  exists E', s'. split; [done|]. split.
  { destruct Hd as (_ & _ & _ & ->). done. }
  destruct err as [[r|msg]|].
  - split; [done|].
    repeat split; try (by rewrite reserved_fields_lookup).
    intros k H1 H2 H3. rewrite reserved_fields_lookup.
    by repeat case_decide.
  - by exists (callstack s).
  - by exists (callstack s).
Qed.

Lemma WithError_case_split_witness :
  valid_ref (heap sample_state) (Entry_Data sample_entry) ∧
  ∃ E' s',
    Entry_WithError sample_entry (Some (PlainError "eof")) sample_state
      = (Return E', s') ∧
    deref (heap s') (Entry_Data E')
      = {[ "error" := VError (PlainError "eof");
           "stacktrace" := VString (render_stack ["main.handle"; "main.main"]);
           "user" := VString "ann"; "a" := VInt 0 ]}.
Proof.
  assert (valid_ref (heap sample_state) (Entry_Data sample_entry)) as H1.
  { vm_compute. eauto. }
  split; [exact H1|].
  destruct (WithError_case_split sample_entry (Some (PlainError "eof"))
              sample_state H1) as (E' & s' & Hrun & _ & captured & Hd & Hcap & _).
  exists E', s'. split; [exact Hrun|].
  destruct Hd as (_ & (l & -> & _ & Hl) & _). simpl. rewrite Hl, Hcap. simpl.
  by vm_compute.
Defined.

(** ** The emission step *)

Section Emission.

Variable loggers : LoggerPtr → Logger.

(** One run of [log]: its outcome depends on the level only, and its
    events are [log_events]. *)
Lemma Entry_log_run entry level msg s :
  let em := emission loggers entry level msg s in
  Entry_log loggers entry level msg s
  = (if Level_leb level PanicLevel then Panicked (PanicEntry (em_payload em))
     else Return tt,
     emitted_state level em s).
Proof.
  destruct s as [h [idle nxt out] clk cs tr].
  unfold emitted_state, Entry_log, emission, log_events, em_payload, pool_after, next_buffer.
  unfold bind, with_defer, time_Now, fire, format, write, bufferPool_Get,
    bufferPool_Put, Buffer_Reset, mu_Lock, mu_Unlock, Fprintf_Stderr, emit,
    panic, ret, hook_report, format_report, write_report, stamp,
    add_event, set_heap, set_pool.
  cbn -[Level_leb String.append].
  destruct (Hooks_Fire _ _ _ _) as [[h1 e1] [herr|]];
    destruct idle as [|b rest];
    repeat (cbn -[Level_leb String.append];
            match goal with
            | |- context [Formatter_Format ?a ?b ?c] =>
                destruct (Formatter_Format a b c) as [? [?|]]
            | |- context [Out_Write ?a ?b] =>
                destruct (Out_Write a b) as [? [?|]]
            end);
    cbn -[Level_leb String.append];
    destruct (Level_leb level PanicLevel);
    cbn -[Level_leb String.append];
    rewrite <- ?app_assoc; reflexivity.
Qed.

Lemma Entry_matchLevel_run entry lv s :
  Entry_matchLevel loggers entry lv s
  = match resolved_module (heap s) entry with
    | Some name =>
        (Return (Level_geb (Logger_level (loggers (Entry_Logger entry)) name) lv), s)
    | None => (Panicked type_assertion_panic, s)
    end.
Proof.
  unfold Entry_matchLevel, resolved_module, bind, map_lookup, assert_string.
  destruct (Entry_Data entry) as [l|]; simpl.
  - destruct (default ∅ (heap s !! l) !! ModuleNameKey) as [[]|]; done.
  - by rewrite lookup_empty.
Qed.

Lemma gate_bind {B} entry lv (k : bool → M B) s name :
  resolved_module (heap s) entry = Some name →
  bind (Entry_matchLevel loggers entry lv) k s
  = k (Level_geb (Logger_level (loggers (Entry_Logger entry)) name) lv) s.
Proof. intros H. unfold bind. by rewrite Entry_matchLevel_run, H. Qed.

Lemma gate_bind_panic {B} entry lv (k : bool → M B) s :
  resolved_module (heap s) entry = None →
  bind (Entry_matchLevel loggers entry lv) k s = (Panicked type_assertion_panic, s).
Proof. intros H. unfold bind. by rewrite Entry_matchLevel_run, H. Qed.

Variable spew_Sdump : list Value → string.
Variable fmt_Sprintf : string → list Value → string.
Variable spew_Sprintf : string → list Value → string.

Local Abbreviation call' := (call loggers spew_Sdump fmt_Sprintf spew_Sprintf).
Local Abbreviation message' := (Method_message spew_Sdump fmt_Sprintf spew_Sprintf).

Local Ltac unfold_methods :=
  unfold call, Entry_Print, Entry_Warning, Entry_Printf, Entry_Warningf,
    Entry_Println, Entry_Warningln;
  unfold Entry_Tracef, Entry_Debugf, Entry_Infof, Entry_Warnf, Entry_Errorf,
    Entry_Fatalf, Entry_Panicf, Entry_Traceln, Entry_Debugln, Entry_Infoln,
    Entry_Warnln, Entry_Errorln, Entry_Fatalln, Entry_Panicln;
  unfold Entry_Trace, Entry_Debug, Entry_Info, Entry_Warn, Entry_Error,
    Entry_Fatal, Entry_Panic.

(** A logging call whose gate is open runs [log] once. *)
Lemma call_open m entry fmt args s name :
  resolved_module (heap s) entry = Some name →
  Level_geb (Logger_level (loggers (Entry_Logger entry)) name) (Method_level m) = true →
  let em := emission loggers entry (Method_level m) (message' m fmt args) s in
  call' m entry fmt args s
  = (emitted_outcome m em, emitted_state (Method_level m) em s).
Proof.
  intros Hres Hopen em. subst em.
  destruct m; simpl in Hopen; unfold_methods;
    repeat (rewrite ?bind_assoc, (gate_bind _ _ _ _ _ Hres), Hopen; cbv beta iota);
    simpl Method_level; simpl Method_message;
    unfold bind; rewrite Entry_log_run; reflexivity.
Qed.

(** A logging call whose gate is closed touches nothing. *)
Lemma call_closed m entry fmt args s name :
  resolved_module (heap s) entry = Some name →
  Level_geb (Logger_level (loggers (Entry_Logger entry)) name) (Method_level m) = false →
  call' m entry fmt args s = (suppressed_outcome m, s).
Proof.
  intros Hres Hclosed.
  destruct m; simpl in Hclosed; unfold_methods;
    repeat (rewrite ?bind_assoc, (gate_bind _ _ _ _ _ Hres), Hclosed; cbv beta iota);
    try reflexivity;
    unfold Level_geb in Hclosed; simpl in Hclosed;
    destruct (Logger_level _ _); discriminate.
Qed.

(** A logging call on an entry whose module field is not a string panics
    in the gate. *)
Lemma call_unresolved m entry fmt args s :
  resolved_module (heap s) entry = None →
  call' m entry fmt args s = (Panicked type_assertion_panic, s).
Proof.
  intros Hres.
  destruct m; unfold_methods; by rewrite (gate_bind_panic _ _ _ _ Hres).
Qed.

End Emission.

(** ** The severity gate and the logging methods *)

Lemma Level_geb_severe minimum requested :
  Level_geb minimum requested = true ↔ at_least_as_severe requested minimum.
Proof. unfold Level_geb, at_least_as_severe. apply Z.leb_le. Qed.

Lemma Level_geb_not_severe minimum requested :
  Level_geb minimum requested = false ↔ ¬ at_least_as_severe requested minimum.
Proof.
  unfold Level_geb, at_least_as_severe. rewrite Z.leb_gt. lia.
Qed.

Lemma log_events_fire level em :
  EvFire level (em_record em) ∈ log_events level em.
Proof. unfold log_events. simpl. apply list_elem_of_here. Qed.

Section Gate.

Variable loggers : LoggerPtr → Logger.
Variable spew_Sdump : list Value → string.
Variable fmt_Sprintf : string → list Value → string.
Variable spew_Sprintf : string → list Value → string.

Local Abbreviation call' := (call loggers spew_Sdump fmt_Sprintf spew_Sprintf).
Local Abbreviation message' := (Method_message spew_Sdump fmt_Sprintf spew_Sprintf).

(** X18.  For every leveled logging call on an entry whose module field, if
    present, holds a module name: the gate resolves the module name from
    the module-name key of the entry's field set, or to the default
    (empty) name when the key is absent; it looks up that module's minimum
    severity in the logger; and the record is emitted (the hooks are fired
    for it, as the first event of the call) if and only if the requested
    severity is at least as severe as that minimum; a call that is not
    emitted leaves the state as it was.  With the registry
    {"foo": Debug, "*": Info}, a Debug call tagged "foo" is written, a
    Debug call tagged "bar" is suppressed, and an untagged call is gated
    by the wildcard: Debug is suppressed, Info is written. *)
Theorem gate_emits_iff_severe_enough (m : Method) (entry : Entry)
    (fmt : string) (args : list Value) (s : State) (name : string) :
  resolved_module (heap s) entry = Some name →
  let minimum := Logger_level (loggers (Entry_Logger entry)) name in
  let lv := Method_level m in
  name = match deref (heap s) (Entry_Data entry) !! ModuleNameKey with
         | Some (VString n) => n
         | _ => DefaultModuleName
         end ∧
  (∃ ok, Entry_matchLevel loggers entry lv s = (Return ok, s) ∧
         (ok = true ↔ at_least_as_severe lv minimum)) ∧
  (∃ o s' evs,
      call' m entry fmt args s = (o, s') ∧
      trace s' = trace s ++ evs ∧
      (at_least_as_severe lv minimum ↔
       EvFire lv (stamp (clock s) lv (message' m fmt args) entry) ∈ evs) ∧
      (at_least_as_severe lv minimum →
       evs = log_events lv (emission loggers entry lv (message' m fmt args) s)) ∧
      (¬ at_least_as_severe lv minimum → s' = s)) ∧
  (∃ e s1 s2,
      Entry_WithModule sample_entry "foo" sample_state = (Return e, s1) ∧
      Entry_Debug gating_loggers sample_Sdump e [VString "hi"] s1 = (Return tt, s2) ∧
      existsb is_write (trace s2) = true) ∧
  (∃ e s1,
      Entry_WithModule sample_entry "bar" sample_state = (Return e, s1) ∧
      Entry_Debug gating_loggers sample_Sdump e [VString "hi"] s1 = (Return tt, s1)) ∧
  (Entry_Debug gating_loggers sample_Sdump sample_entry [VString "hi"] sample_state
   = (Return tt, sample_state) ∧
   ∃ s2,
     Entry_Info gating_loggers sample_Sdump sample_entry [VString "hi"] sample_state
     = (Return tt, s2) ∧
     existsb is_write (trace s2) = true).
Proof.
  intros Hres minimum lv.
  split; [|split; [|split; [|split; [|split]]]].
  - unfold resolved_module in Hres.
    destruct (deref (heap s) (Entry_Data entry) !! ModuleNameKey) as [[]|];
      congruence.
  - eexists. split.
    + by rewrite Entry_matchLevel_run, Hres.
    + apply Level_geb_severe.
  - destruct (Level_geb minimum lv) eqn:Hgate.
    + pose proof (proj1 (Level_geb_severe _ _) Hgate) as Hsev.
      eexists _, _, _. split; [by eapply call_open|].
      split; [done|]. split; [|split; [done|done]].
      split; [|done]. intros _.
      apply (log_events_fire lv (emission loggers entry lv (message' m fmt args) s)).
    + pose proof (proj1 (Level_geb_not_severe _ _) Hgate) as Hsev.
      exists (suppressed_outcome m), s, [].
      split; [by eapply call_closed|].
      split; [by rewrite app_nil_r|]. split; [|split; [done|done]].
      split; [done|]. intros Hin. by apply elem_of_nil in Hin.
  - eexists _, _, _. split; [by vm_compute|]. split; by vm_compute.
  - eexists _, _. split; by vm_compute.
  - split; [by vm_compute|]. eexists. split; by vm_compute.
Qed.

End Gate.

Lemma gate_emits_iff_severe_enough_witness :
  resolved_module (heap sample_state) sample_entry = Some "" ∧
  ∃ ok, Entry_matchLevel gating_loggers sample_entry (Method_level Debugf) sample_state
        = (Return ok, sample_state) ∧
        (ok = true ↔
         at_least_as_severe (Method_level Debugf)
           (Logger_level (gating_loggers (Entry_Logger sample_entry)) "")).
Proof.
  assert (resolved_module (heap sample_state) sample_entry = Some "") as H1.
  { by vm_compute. }
  split; [exact H1|].
  exact (proj1 (proj2 (gate_emits_iff_severe_enough gating_loggers sample_Sdump
                         sample_Sprintf sample_Sprintf Debugf sample_entry "%d"
                         [VInt 1] sample_state "" H1))).
Defined.

Section Calls.

Variable loggers : LoggerPtr → Logger.
Variable spew_Sdump : list Value → string.
Variable fmt_Sprintf : string → list Value → string.
Variable spew_Sprintf : string → list Value → string.

Local Abbreviation call' := (call loggers spew_Sdump fmt_Sprintf spew_Sprintf).
Local Abbreviation message' := (Method_message spew_Sdump fmt_Sprintf spew_Sprintf).

(** C10. On an entry whose field set maps the module-name key to a value
    that is not a string, every leveled logging call fails in the gate
    check: [matchLevel] panics on its unguarded type assertion, the call
    panics with that runtime error, and nothing is emitted and nothing
    else happens (the state is as before).  The gate check returns
    exactly when the module-name field is absent or holds a string. *)
Theorem non_string_module_panics_in_gate (m : Method) (entry : Entry)
    (fmt : string) (args : list Value) (s : State) (v : Value) :
  deref (heap s) (Entry_Data entry) !! ModuleNameKey = Some v →
  (∀ name, v ≠ VString name) →
  Entry_matchLevel loggers entry (Method_level m) s
    = (Panicked type_assertion_panic, s) ∧
  call' m entry fmt args s = (Panicked type_assertion_panic, s) ∧
  (∀ (e : Entry) (lv : Level) (s0 : State),
      (∃ ok, Entry_matchLevel loggers e lv s0 = (Return ok, s0)) ↔
      (deref (heap s0) (Entry_Data e) !! ModuleNameKey = None ∨
       ∃ name, deref (heap s0) (Entry_Data e) !! ModuleNameKey
               = Some (VString name))).
Proof.
  intros Hv Hns.
  assert (resolved_module (heap s) entry = None) as Hres.
  { unfold resolved_module. rewrite Hv. destruct v; try done.
    by destruct (Hns s0). }
  split; [|split].
  - by rewrite Entry_matchLevel_run, Hres.
  - by apply call_unresolved.
  - intros e lv s0. rewrite Entry_matchLevel_run. unfold resolved_module.
    destruct (deref (heap s0) (Entry_Data e) !! ModuleNameKey) as [[]|];
      split; try (intros [ok [=]]); try (intros [[=]|[name [=]]]); eauto.
Qed.

(** C4, amended.  A logging call whose requested severity is less severe
    than the resolved module's minimum fires no hook, acquires no buffer
    and writes nothing: the state after the call is the state before it.
    For the severities below Fatal the call just returns.  A suppressed
    Fatal, Fatalf or Fatalln still terminates the process with status 1.
    Panic is the most severe level, so no Panic call is ever suppressed. *)
Theorem suppressed_call_only_fatal_exits (m : Method) (entry : Entry)
    (fmt : string) (args : list Value) (s : State) (name : string) :
  resolved_module (heap s) entry = Some name →
  ¬ at_least_as_severe (Method_level m)
      (Logger_level (loggers (Entry_Logger entry)) name) →
  ∃ o,
    call' m entry fmt args s = (o, s) ∧
    Method_level m ≠ PanicLevel ∧
    (Method_level m = FatalLevel → o = Exited 1) ∧
    (Method_level m ≠ FatalLevel → o = Return tt).
Proof.
  intros Hres Hsev. apply Level_geb_not_severe in Hsev.
  exists (suppressed_outcome m).
  split; [by eapply call_closed|].
  unfold suppressed_outcome. split; [|split].
  - intros Hp. rewrite Hp in Hsev. unfold Level_geb in Hsev. simpl in Hsev.
    by destruct (Logger_level _ _).
  - by intros ->.
  - by destruct (Method_level m).
Qed.

End Calls.

(** C4, the claim as stated fails: with a module minimum of Panic, a
    Fatal call is gated out ([matchLevel] answers false), nothing is
    emitted, and the process still terminates with status 1. *)
Lemma suppressed_Fatal_still_exits :
  Entry_matchLevel panic_only_loggers sample_entry FatalLevel sample_state
    = (Return false, sample_state) ∧
  Entry_Fatal panic_only_loggers sample_Sdump sample_entry [VString "boom"]
    sample_state = (Exited 1, sample_state) ∧
  Entry_Fatal panic_only_loggers sample_Sdump sample_entry [VString "boom"]
    sample_state ≠ (Return tt, sample_state).
Proof. repeat split; by vm_compute. Qed.

Lemma non_string_module_panics_in_gate_witness :
  deref (heap untyped_module_state) (Entry_Data untyped_module_entry)
    !! ModuleNameKey = Some (VInt 42) ∧
  (∀ name, VInt 42 ≠ VString name) ∧
  call gating_loggers sample_Sdump sample_Sprintf sample_Sprintf
    Info untyped_module_entry "" [VString "hi"] untyped_module_state
  = (Panicked type_assertion_panic, untyped_module_state).
Proof.
  assert (deref (heap untyped_module_state) (Entry_Data untyped_module_entry)
            !! ModuleNameKey = Some (VInt 42)) as H1 by (by vm_compute).
  assert (∀ name, VInt 42 ≠ VString name) as H2 by done.
  split; [exact H1|]. split; [exact H2|].
  exact (proj1 (proj2 (non_string_module_panics_in_gate gating_loggers
                         sample_Sdump sample_Sprintf sample_Sprintf Info
                         untyped_module_entry "" [VString "hi"]
                         untyped_module_state (VInt 42) H1 H2))).
Defined.

Lemma suppressed_call_only_fatal_exits_witness :
  resolved_module (heap sample_state) sample_entry = Some "" ∧
  ¬ at_least_as_severe (Method_level Debugln)
      (Logger_level (gating_loggers (Entry_Logger sample_entry)) "") ∧
  ∃ o,
    call gating_loggers sample_Sdump sample_Sprintf sample_Sprintf
      Debugln sample_entry "" [VString "hi"] sample_state = (o, sample_state) ∧
    (Method_level Debugln ≠ FatalLevel → o = Return tt).
Proof.
  assert (resolved_module (heap sample_state) sample_entry = Some "") as H1
    by (by vm_compute).
  assert (¬ at_least_as_severe (Method_level Debugln)
            (Logger_level (gating_loggers (Entry_Logger sample_entry)) "")) as H2.
  { vm_compute. intros H. by apply H. }
  split; [exact H1|]. split; [exact H2|].
  destruct (suppressed_call_only_fatal_exits gating_loggers sample_Sdump
              sample_Sprintf sample_Sprintf Debugln sample_entry ""
              [VString "hi"] sample_state "" H1 H2) as (o & Hrun & _ & _ & Hret).
  exists o. split; [exact Hrun|exact Hret].
Defined.

(** ** Emission: ordering, failures and the buffer pool *)

Lemma pool_after_out p : pool_out (pool_after p) = pool_out p.
Proof. unfold pool_after. by destruct (pool_idle p). Qed.

Lemma pool_after_idle p : next_buffer p ∈ pool_idle (pool_after p).
Proof.
  unfold pool_after, next_buffer.
  destruct (pool_idle p); simpl; apply list_elem_of_here.
Qed.

Section Pipeline.

Variable loggers : LoggerPtr → Logger.
Variable spew_Sdump : list Value → string.
Variable fmt_Sprintf : string → list Value → string.
Variable spew_Sprintf : string → list Value → string.

Local Abbreviation call' := (call loggers spew_Sdump fmt_Sprintf spew_Sprintf).
Local Abbreviation message' := (Method_message spew_Sdump fmt_Sprintf spew_Sprintf).
Local Abbreviation run_calls' :=
  (run_calls loggers spew_Sdump fmt_Sprintf spew_Sprintf).

(** C3, amended.  For every emitted record at a terminal severity whose
    formatting succeeds, the terminal side effect comes after the write:
    the events of the call contain the write of the bytes the formatter
    produced for the record, and the call then ends, a Fatal-level call
    by terminating the process with status 1 and a Panic-level call by
    unwinding with the record (the entry the hooks and the formatter saw,
    its buffer detached) as payload.  When the formatter fails nothing is
    written and the call ends in the same way. *)
Theorem terminal_effect_follows_write (m : Method) (entry : Entry)
    (fmt : string) (args : list Value) (s : State) (name : string) :
  resolved_module (heap s) entry = Some name →
  at_least_as_severe (Method_level m)
    (Logger_level (loggers (Entry_Logger entry)) name) →
  Method_level m = FatalLevel ∨ Method_level m = PanicLevel →
  let em := emission loggers entry (Method_level m) (message' m fmt args) s in
  ∃ o s',
    call' m entry fmt args s = (o, s') ∧
    (Method_level m = FatalLevel → o = Exited 1) ∧
    (Method_level m = PanicLevel →
     o = Panicked (PanicEntry (set_Buffer None (em_fired em)))) ∧
    em_serialized em
      = (Formatter_Format (loggers (Entry_Logger (em_fired em)))
           (set_Buffer (Some (em_buffer em)) (em_fired em)) (em_heap em)).1 ∧
    (em_format_error em = None →
     ∃ before after,
       trace s' = trace s ++ before ++ EvWrite (em_serialized em) :: after ∧
       EvFormat (set_Buffer (Some (em_buffer em)) (em_fired em)) ∈ before) ∧
    (em_format_error em ≠ None →
     ∃ evs, trace s' = trace s ++ evs ∧ existsb is_write evs = false).
Proof.
  intros Hres Hsev Hterm em. apply Level_geb_severe in Hsev.
  exists (emitted_outcome m em), (emitted_state (Method_level m) em s).
  split; [by eapply call_open|].
  unfold emitted_outcome.
  split; [by intros ->|]. split; [by intros ->|]. split; [done|].
  unfold emitted_state; cbn [trace]. clearbody em. split.
  - intros Hfmt.
    exists ([EvFire (Method_level m) (em_record em)]
            ++ match em_hook_error em with
               | Some err => [EvLock; hook_report err; EvUnlock]
               | None => []
               end
            ++ [EvGet (em_buffer em); EvReset (em_buffer em);
                EvFormat (set_Buffer (Some (em_buffer em)) (em_fired em));
                EvLock]),
      (match em_write_error em with
       | Some err => [write_report err]
       | None => []
       end ++ [EvUnlock; EvPut (em_buffer em)]).
    split.
    + unfold log_events. rewrite Hfmt.
      destruct (em_hook_error em), (em_write_error em); reflexivity.
    + destruct (em_hook_error em); cbn [app];
        repeat first [apply list_elem_of_here | apply list_elem_of_further].
  - intros Hfmt. exists (log_events (Method_level m) em). split; [done|].
    unfold log_events.
    destruct (em_format_error em); [|done].
    by destruct (em_hook_error em).
Qed.

(** C6. No failure inside the pipeline reaches the caller of a logging
    method: an emitted call ends as its severity says (it returns for the
    severities below Fatal; Fatal terminates the process and Panic unwinds
    with the record) whatever the hooks, the formatter and the writer
    answer.  A hook failure is reported to standard error and emission
    proceeds to the buffer and the formatter.  A formatter failure is
    reported, nothing is written, and the buffer is still put back.  A
    write failure is reported after the write was attempted. *)
Theorem pipeline_failures_not_propagated (m : Method) (entry : Entry)
    (fmt : string) (args : list Value) (s : State) (name : string) :
  resolved_module (heap s) entry = Some name →
  at_least_as_severe (Method_level m)
    (Logger_level (loggers (Entry_Logger entry)) name) →
  let lv := Method_level m in
  let em := emission loggers entry lv (message' m fmt args) s in
  ∃ o s',
    call' m entry fmt args s = (o, s') ∧
    trace s' = trace s ++ log_events lv em ∧
    o = match lv with
        | PanicLevel => Panicked (PanicEntry (em_payload em))
        | FatalLevel => Exited 1
        | _ => Return tt
        end ∧
    (∀ err, em_hook_error em = Some err →
            hook_report err ∈ log_events lv em ∧
            EvGet (em_buffer em) ∈ log_events lv em ∧
            EvFormat (set_Buffer (Some (em_buffer em)) (em_fired em))
              ∈ log_events lv em) ∧
    (∀ err, em_format_error em = Some err →
            format_report err ∈ log_events lv em ∧
            existsb is_write (log_events lv em) = false ∧
            EvPut (em_buffer em) ∈ log_events lv em) ∧
    (∀ err, em_format_error em = None → em_write_error em = Some err →
            EvWrite (em_serialized em) ∈ log_events lv em ∧
            write_report err ∈ log_events lv em).
Proof.
  intros Hres Hsev lv em. apply Level_geb_severe in Hsev.
  exists (emitted_outcome m em), (emitted_state lv em s).
  split; [by eapply call_open|]. split; [done|]. split; [done|].
  clearbody em. unfold log_events. split; [|split].
  - intros err ->.
    destruct (em_format_error em), (em_write_error em); simpl;
      repeat split;
      repeat first [apply list_elem_of_here | apply list_elem_of_further].
  - intros err ->.
    destruct (em_hook_error em); simpl;
      repeat split;
      repeat first [apply list_elem_of_here | apply list_elem_of_further].
  - intros err -> ->.
    destruct (em_hook_error em); simpl;
      repeat split;
      repeat first [apply list_elem_of_here | apply list_elem_of_further].
Qed.

Lemma call_pool_out m entry fmt args s :
  pool_out (pool (call' m entry fmt args s).2) = pool_out (pool s).
Proof.
  destruct (resolved_module (heap s) entry) as [name|] eqn:Hres.
  - destruct (Level_geb (Logger_level (loggers (Entry_Logger entry)) name)
                (Method_level m)) eqn:Hgate.
    + erewrite call_open by done. simpl. apply pool_after_out.
    + by erewrite call_closed.
  - by erewrite call_unresolved.
Qed.

(** C9. Every run of the emission step puts the buffer it took from the
    pool back, whatever the hooks, the formatter and the writer answer
    and also when the run ends by the Panic-level unwind: the number of
    checked-out buffers after the run is the number before it, the
    buffer is idle in the pool again, and putting it back is the last
    event of the run.  Hence after any sequence of logging calls the
    checked-out count is what it was at the start, zero if it was zero. *)
Theorem buffer_returned_on_every_path (entry : Entry) (level : Level)
    (msg : string) (s : State) (calls : list LogCall) :
  let em := emission loggers entry level msg s in
  let s' := (Entry_log loggers entry level msg s).2 in
  pool_out (pool s') = pool_out (pool s) ∧
  em_buffer em ∈ pool_idle (pool s') ∧
  (∃ before between,
      trace s' = trace s ++ before ++ EvGet (em_buffer em) :: between
                 ++ [EvPut (em_buffer em)]) ∧
  pool_out (pool (run_calls' calls s)) = pool_out (pool s) ∧
  (pool_out (pool s) = 0 → pool_out (pool (run_calls' calls s)) = 0).
Proof.
  intros em s'. subst s'. rewrite Entry_log_run.
  fold em. unfold emitted_state; cbn [snd pool trace].
  split; [apply pool_after_out|]. split; [apply pool_after_idle|].
  clearbody em. split.
  { exists ([EvFire level (em_record em)]
            ++ match em_hook_error em with
               | Some err => [EvLock; hook_report err; EvUnlock]
               | None => []
               end),
      ([EvReset (em_buffer em);
        EvFormat (set_Buffer (Some (em_buffer em)) (em_fired em))]
       ++ match em_format_error em with
          | Some err => [EvLock; format_report err; EvUnlock]
          | None =>
              [EvLock; EvWrite (em_serialized em)]
              ++ match em_write_error em with
                 | Some err => [write_report err]
                 | None => []
                 end
              ++ [EvUnlock]
          end).
    unfold log_events.
    destruct (em_hook_error em), (em_format_error em), (em_write_error em);
      reflexivity. }
  assert (pool_out (pool (run_calls' calls s)) = pool_out (pool s)) as Hseq.
  { clear em. revert s. induction calls as [|c rest IH]; intros s; [done|].
    simpl.
    pose proof (call_pool_out (lc_method c) (lc_entry c) (lc_format c)
                  (lc_args c) s) as Hc.
    destruct (call' _ _ _ _ s) as [[?|?|?] s1]; simpl in Hc;
      rewrite ?IH; done. }
  split; [done|]. intros H0. by rewrite Hseq.
Qed.

End Pipeline.

(** C3, the claim as stated fails: with a formatter that fails, an
    emitted Fatal call (the gate is open and the hooks are fired) ends
    with the process terminated and no write in its events. *)
Lemma Fatal_exits_without_write :
  Entry_matchLevel failing_format_loggers sample_entry FatalLevel sample_state
    = (Return true, sample_state) ∧
  ∃ s',
    Entry_Fatal failing_format_loggers sample_Sdump sample_entry
      [VString "boom"] sample_state = (Exited 1, s') ∧
    hd_error (trace s')
      = Some (EvFire FatalLevel
                (stamp (clock sample_state) FatalLevel "boom" sample_entry)) ∧
    existsb is_write (trace s') = false.
Proof.
  split; [by vm_compute|].
  eexists. split; [by vm_compute|]. split; by vm_compute.
Qed.

Lemma terminal_effect_follows_write_witness :
  resolved_module (heap sample_state) sample_entry = Some "" ∧
  at_least_as_severe (Method_level Panic)
    (Logger_level (gating_loggers (Entry_Logger sample_entry)) "") ∧
  (Method_level Panic = FatalLevel ∨ Method_level Panic = PanicLevel) ∧
  ∃ o s',
    call gating_loggers sample_Sdump sample_Sprintf sample_Sprintf
      Panic sample_entry "" [VString "boom"] sample_state = (o, s') ∧
    (Method_level Panic = PanicLevel →
     o = Panicked
           (PanicEntry
              (set_Buffer None
                 (em_fired
                    (emission gating_loggers sample_entry (Method_level Panic)
                       (Method_message sample_Sdump sample_Sprintf
                          sample_Sprintf Panic "" [VString "boom"])
                       sample_state))))).
Proof.
  assert (resolved_module (heap sample_state) sample_entry = Some "") as H1
    by (by vm_compute).
  assert (at_least_as_severe (Method_level Panic)
            (Logger_level (gating_loggers (Entry_Logger sample_entry)) "")) as H2.
  { unfold at_least_as_severe. vm_compute. discriminate. }
  assert (Method_level Panic = FatalLevel ∨ Method_level Panic = PanicLevel) as H3.
  { right. reflexivity. }
  split; [exact H1|]. split; [exact H2|]. split; [exact H3|].
  destruct (terminal_effect_follows_write gating_loggers sample_Sdump
              sample_Sprintf sample_Sprintf Panic sample_entry ""
              [VString "boom"] sample_state "" H1 H2 H3)
    as (o & s' & Hrun & _ & Hpanic & _).
  exists o, s'. split; [exact Hrun|exact Hpanic].
Defined.

Lemma pipeline_failures_not_propagated_witness :
  resolved_module (heap sample_state) sample_entry = Some "" ∧
  at_least_as_severe (Method_level Error)
    (Logger_level (failing_format_loggers (Entry_Logger sample_entry)) "") ∧
  ∃ o s',
    call failing_format_loggers sample_Sdump sample_Sprintf sample_Sprintf
      Error sample_entry "" [VString "oops"] sample_state = (o, s') ∧
    o = Return tt.
Proof.
  assert (resolved_module (heap sample_state) sample_entry = Some "") as H1
    by (by vm_compute).
  assert (at_least_as_severe (Method_level Error)
            (Logger_level (failing_format_loggers (Entry_Logger sample_entry)) ""))
    as H2.
  { unfold at_least_as_severe. vm_compute. discriminate. }
  split; [exact H1|]. split; [exact H2|].
  destruct (pipeline_failures_not_propagated failing_format_loggers sample_Sdump
              sample_Sprintf sample_Sprintf Error sample_entry ""
              [VString "oops"] sample_state "" H1 H2)
    as (o & s' & Hrun & _ & Ho & _).
  exists o, s'. split; [exact Hrun|exact Ho].
Defined.

(** * Further properties of [entry.go] *)

(** ** Chaining composes *)

Lemma derived_contents E s new E' s' :
  derived E s new E' s' →
  deref (heap s') (Entry_Data E') = new ∪ deref (heap s) (Entry_Data E).
Proof. intros (_ & (l & -> & _ & Hl) & _). simpl. by rewrite Hl. Qed.

Lemma derived_valid E s new E' s' :
  derived E s new E' s' → valid_ref (heap s') (Entry_Data E').
Proof. intros (_ & (l & -> & _ & Hl) & _). simpl. eauto. Qed.

(** X1.  Chaining [WithFields] twice gives the fields of the second call laid
    over those of the first laid over the parent's, as one call with the
    merged map would; the intermediate record and the parent keep their
    fields. *)
Theorem WithFields_twice (E : Entry) (F G : Fields) (s : State) :
  valid_ref (heap s) (Entry_Data E) →
  valid_ref (heap s) F →
  valid_ref (heap s) G →
  ∃ E1 s1 E2 s2,
    Entry_WithFields E F s = (Return E1, s1) ∧
    Entry_WithFields E1 G s1 = (Return E2, s2) ∧
    deref (heap s2) (Entry_Data E2)
      = (deref (heap s) G ∪ deref (heap s) F) ∪ deref (heap s) (Entry_Data E) ∧
    deref (heap s2) (Entry_Data E1)
      = deref (heap s) F ∪ deref (heap s) (Entry_Data E) ∧
    deref (heap s2) (Entry_Data E) = deref (heap s) (Entry_Data E) ∧
    Entry_Logger E2 = Entry_Logger E.
Proof.
  intros HvE HvF HvG.
  destruct (Entry_WithFields_derived E F s) as (E1 & s1 & Hrun1 & Hd1).
  destruct (Entry_WithFields_derived E1 G s1) as (E2 & s2 & Hrun2 & Hd2).
  exists E1, s1, E2, s2. split; [done|]. split; [done|].
  pose proof (derived_contents _ _ _ _ _ Hd1) as H1.
  pose proof (derived_contents _ _ _ _ _ Hd2) as H2.
  pose proof (derived_valid _ _ _ _ _ Hd1) as HvE1.
  destruct (derived_deref _ _ _ _ _ G Hd1 HvG) as [HG _].
  destruct (derived_deref _ _ _ _ _ _ Hd1 HvE) as [HE1 HvE'].
  destruct (derived_deref _ _ _ _ _ _ Hd2 HvE1) as [HE12 _].
  destruct (derived_deref _ _ _ _ _ _ Hd2 HvE') as [HE2 _].
  split; [|split; [|split]].
  - by rewrite H2, HG, H1, (assoc_L (∪)).
  - by rewrite HE12, H1.
  - by rewrite HE2, HE1.
  - destruct Hd1 as (Hl1 & _), Hd2 as (Hl2 & _). congruence.
Qed.

Lemma WithFields_twice_witness :
  valid_ref (heap sample_state) (Entry_Data sample_entry) ∧
  valid_ref (heap sample_state) (Some 2%positive) ∧
  valid_ref (heap sample_state) None ∧
  ∃ E1 s1 E2 s2,
    Entry_WithFields sample_entry (Some 2%positive) sample_state = (Return E1, s1) ∧
    Entry_WithFields E1 None s1 = (Return E2, s2) ∧
    deref (heap s2) (Entry_Data E2)
      = {[ "user" := VString "ann"; "a" := VInt 7; "req" := VInt 42 ]}.
Proof.
  assert (valid_ref (heap sample_state) (Entry_Data sample_entry)) as H1.
  { vm_compute. eauto. }
  assert (valid_ref (heap sample_state) (Some 2%positive)) as H2.
  { vm_compute. eauto. }
  assert (valid_ref (heap sample_state) None) as H3 by exact I.
  split; [exact H1|]. split; [exact H2|]. split; [exact H3|].
  destruct (WithFields_twice sample_entry (Some 2%positive) None sample_state
              H1 H2 H3) as (E1 & s1 & E2 & s2 & Hr1 & Hr2 & Hc & _).
  exists E1, s1, E2, s2. split; [exact Hr1|]. split; [exact Hr2|].
  rewrite Hc. by vm_compute.
Defined.

(** X2.  Copy-on-write: the map of the record [WithFields] returns shares
    nothing with the maps it was built from.  An assignment into the new
    record's map (as a hook may do) leaves the parent's fields and the
    argument as they were, and an assignment into the parent's map
    afterwards, whether it succeeds or panics on a nil map, leaves the
    new record's fields as they were. *)
Theorem WithFields_shares_no_map (E : Entry) (F : Fields) (s : State)
    (k : string) (v : Value) :
  valid_ref (heap s) (Entry_Data E) →
  valid_ref (heap s) F →
  ∃ E' s',
    Entry_WithFields E F s = (Return E', s') ∧
    (∃ s'',
        map_assign (Entry_Data E') k v s' = (Return tt, s'') ∧
        deref (heap s'') (Entry_Data E')
          = <[k := v]> (deref (heap s) F ∪ deref (heap s) (Entry_Data E)) ∧
        deref (heap s'') (Entry_Data E) = deref (heap s) (Entry_Data E) ∧
        deref (heap s'') F = deref (heap s) F) ∧
    (∀ o s'',
        map_assign (Entry_Data E) k v s' = (o, s'') →
        deref (heap s'') (Entry_Data E')
          = deref (heap s) F ∪ deref (heap s) (Entry_Data E)).
Proof.
  intros HvE HvF.
  destruct (Entry_WithFields_derived E F s) as (E' & s' & Hrun & Hd).
  exists E', s'. split; [done|].
  pose proof (derived_contents _ _ _ _ _ Hd) as Hc.
  destruct (derived_deref _ _ _ _ _ _ Hd HvE) as [HE HvE'].
  destruct (derived_deref _ _ _ _ _ _ Hd HvF) as [HF HvF'].
  destruct Hd as (_ & (l & Hl & Hfresh & Hnew) & Hold & _).
  assert (∀ f, valid_ref (heap s) f → f ≠ Some l) as Hne.
  { intros f Hv ->. destruct Hv as [c Hc']. congruence. }
  split.
  - rewrite Hl. unfold map_assign. rewrite Hnew. eexists. split; [done|].
    simpl. split; [by rewrite lookup_insert_eq|].
    assert (∀ f, valid_ref (heap s) f →
                 deref (<[l := <[k := v]>
                              (deref (heap s) F ∪ deref (heap s) (Entry_Data E))]>
                          (heap s')) f = deref (heap s') f) as Hsame.
    { intros [l0|] Hv; simpl; [|done].
      rewrite lookup_insert_ne; [done|]. intros ->. by apply (Hne (Some l0)). }
    split; [by rewrite Hsame, HE|by rewrite Hsame, HF].
  - intros o s'' Hassign. unfold map_assign in Hassign.
    destruct (Entry_Data E) as [lE|] eqn:HdE.
    + destruct (heap s' !! lE) as [c|] eqn:HlE.
      * injection Hassign as <- <-. rewrite Hl. simpl.
        rewrite lookup_insert_ne; [by rewrite Hnew|].
        intros ->. by apply (Hne (Some l)).
      * injection Hassign as <- <-. by rewrite Hc.
    + injection Hassign as <- <-. by rewrite Hc.
Qed.

Lemma WithFields_shares_no_map_witness :
  valid_ref (heap sample_state) (Entry_Data sample_entry) ∧
  valid_ref (heap sample_state) (Some 2%positive) ∧
  ∃ E' s' s'',
    Entry_WithFields sample_entry (Some 2%positive) sample_state = (Return E', s') ∧
    map_assign (Entry_Data E') "hook" (VBool true) s' = (Return tt, s'') ∧
    deref (heap s'') (Entry_Data sample_entry)
      = {[ "user" := VString "ann"; "a" := VInt 0 ]}.
Proof.
  assert (valid_ref (heap sample_state) (Entry_Data sample_entry)) as H1.
  { vm_compute. eauto. }
  assert (valid_ref (heap sample_state) (Some 2%positive)) as H2.
  { vm_compute. eauto. }
  split; [exact H1|]. split; [exact H2|].
  destruct (WithFields_shares_no_map sample_entry (Some 2%positive) sample_state
              "hook" (VBool true) H1 H2)
    as (E' & s' & Hrun & (s'' & Ha & _ & HE & _) & _).
  exists E', s', s''. split; [exact Hrun|]. split; [exact Ha|].
  rewrite HE. by vm_compute.
Defined.

(** X3.  [WithField] on the same key twice keeps the later value; on two
    different keys the order of the calls does not matter for the fields
    of the result. *)
Theorem WithField_later_wins_and_commutes (E : Entry) (s : State)
    (k1 k2 : string) (v1 v2 : Value) :
  valid_ref (heap s) (Entry_Data E) →
  ∃ E1 s1 E2 s2 E1' s1' E2' s2',
    Entry_WithField E k1 v1 s = (Return E1, s1) ∧
    Entry_WithField E1 k2 v2 s1 = (Return E2, s2) ∧
    Entry_WithField E k2 v2 s = (Return E1', s1') ∧
    Entry_WithField E1' k1 v1 s1' = (Return E2', s2') ∧
    deref (heap s2) (Entry_Data E2)
      = <[k2 := v2]> (<[k1 := v1]> (deref (heap s) (Entry_Data E))) ∧
    (k1 = k2 →
     deref (heap s2) (Entry_Data E2)
       = <[k2 := v2]> (deref (heap s) (Entry_Data E))) ∧
    (k1 ≠ k2 →
     deref (heap s2) (Entry_Data E2) = deref (heap s2') (Entry_Data E2')).
Proof.
  intros Hv.
  assert (∀ ka va kb vb, ∃ Ea sa Eb sb,
             Entry_WithField E ka va s = (Return Ea, sa) ∧
             Entry_WithField Ea kb vb sa = (Return Eb, sb) ∧
             deref (heap sb) (Entry_Data Eb)
               = <[kb := vb]> (<[ka := va]> (deref (heap s) (Entry_Data E))))
    as Htwo.
  { intros ka va kb vb.
    destruct (Entry_WithField_derived E ka va s Hv) as (Ea & sa & Hra & Hda).
    pose proof (derived_valid _ _ _ _ _ Hda) as Hva.
    destruct (Entry_WithField_derived Ea kb vb sa Hva) as (Eb & sb & Hrb & Hdb).
    exists Ea, sa, Eb, sb. split; [done|]. split; [done|].
    rewrite (derived_contents _ _ _ _ _ Hdb), (derived_contents _ _ _ _ _ Hda).
    by rewrite !insert_union_singleton_l. }
  destruct (Htwo k1 v1 k2 v2) as (E1 & s1 & E2 & s2 & Hr1 & Hr2 & Hc).
  destruct (Htwo k2 v2 k1 v1) as (E1' & s1' & E2' & s2' & Hr1' & Hr2' & Hc').
  exists E1, s1, E2, s2, E1', s1', E2', s2'.
  repeat (split; [done|]). split.
  - intros ->. by rewrite Hc, insert_insert_eq.
  - intros Hne. rewrite Hc, Hc'. by apply insert_insert_ne.
Qed.

Lemma WithField_later_wins_and_commutes_witness :
  valid_ref (heap sample_state) (Entry_Data sample_entry) ∧
  ∃ E1 s1 E2 s2,
    Entry_WithField sample_entry "a" (VInt 1) sample_state = (Return E1, s1) ∧
    Entry_WithField E1 "a" (VInt 2) s1 = (Return E2, s2) ∧
    deref (heap s2) (Entry_Data E2)
      = {[ "user" := VString "ann"; "a" := VInt 2 ]}.
Proof.
  assert (valid_ref (heap sample_state) (Entry_Data sample_entry)) as H1.
  { vm_compute. eauto. }
  split; [exact H1|].
  destruct (WithField_later_wins_and_commutes sample_entry sample_state
              "a" "a" (VInt 1) (VInt 2) H1)
    as (E1 & s1 & E2 & s2 & E1' & s1' & E2' & s2'
        & Hr1 & Hr2 & _ & _ & _ & Hsame & _).
  exists E1, s1, E2, s2. split; [exact Hr1|]. split; [exact Hr2|].
  rewrite (Hsame eq_refl). by vm_compute.
Defined.

(** ** [With] is sugar for field chaining *)

Lemma foldl_assign1_from (ps : list (string * Value)) (c : FieldMap) :
  foldl assign1 c ps = foldl assign1 ∅ ps ∪ c.
Proof.
  revert c. induction ps as [|[k v] ps IH]; intros c; simpl.
  - by rewrite (left_id_L ∅ (∪)).
  - rewrite (IH (assign1 c (k, v))), (IH (assign1 ∅ (k, v))).
    unfold assign1; simpl. rewrite insert_empty.
    by rewrite <- (assoc_L (∪)), insert_union_singleton_l.
Qed.

Lemma WithField_chain_run (ps : list (string * Value)) E s :
  valid_ref (heap s) (Entry_Data E) →
  ∃ E' s',
    WithField_chain E ps s = (Return E', s') ∧
    valid_ref (heap s') (Entry_Data E') ∧
    Entry_Logger E' = Entry_Logger E ∧
    deref (heap s') (Entry_Data E')
      = foldl assign1 (deref (heap s) (Entry_Data E)) ps.
Proof.
  revert E s. induction ps as [|[k v] ps IH]; intros E s Hv; simpl.
  - by exists E, s.
  - destruct (Entry_WithField_derived E k v s Hv) as (E1 & s1 & Hr1 & Hd1).
    destruct (IH E1 s1 (derived_valid _ _ _ _ _ Hd1)) as (E' & s' & Hr & Hv' & Hlg & Hc).
    exists E', s'. split; [by erewrite bind_Return|]. split; [done|]. split.
    + destruct Hd1 as (Hl1 & _). congruence.
    + rewrite Hc, (derived_contents _ _ _ _ _ Hd1). f_equal.
      unfold assign1; simpl. by rewrite insert_union_singleton_l.
Qed.

(** X4.  [With(key, value, extras...)] gives the record the same fields as
    calling [WithField] once for the leading pair and once for each pair
    of the trailing arguments (the unpaired last key with nil), in that
    order; with no trailing arguments it is [WithField(key, value)]
    itself. *)
Theorem With_is_chained_WithField (E : Entry) (key : string) (value : Value)
    (extras : list Value) (s : State) :
  valid_ref (heap s) (Entry_Data E) →
  (∃ E1 s1 E2 s2,
      Entry_With E key value extras s = (Return E1, s1) ∧
      WithField_chain E ((key, value) :: spec_With_pairs extras) s
        = (Return E2, s2) ∧
      deref (heap s1) (Entry_Data E1) = deref (heap s2) (Entry_Data E2) ∧
      Entry_Logger E1 = Entry_Logger E2) ∧
  Entry_With E key value [] s = Entry_WithField E key value s.
Proof.
  intros Hv. split.
  - destruct (Entry_With_derived E key value extras s Hv) as (E1 & s1 & Hr1 & Hd1).
    destruct (WithField_chain_run ((key, value) :: spec_With_pairs extras) E s Hv)
      as (E2 & s2 & Hr2 & _ & Hlg & Hc).
    exists E1, s1, E2, s2. split; [done|]. split; [done|]. split.
    + rewrite (derived_contents _ _ _ _ _ Hd1), Hc. unfold With_fields.
      by rewrite (foldl_assign1_from _ (deref (heap s) (Entry_Data E))).
    + destruct Hd1 as (Hl1 & _). congruence.
  - rewrite Entry_With_run, Entry_WithField_run.
    replace (With_fields key value []) with ({[key := value]} : FieldMap)
      by (rewrite With_fields_unfold; reflexivity).
    cbv zeta. by rewrite <- insert_union_singleton_l.
Qed.

Lemma With_is_chained_WithField_witness :
  valid_ref (heap sample_state) (Entry_Data sample_entry) ∧
  Entry_With sample_entry "k" (VInt 5) [] sample_state
  = Entry_WithField sample_entry "k" (VInt 5) sample_state.
Proof.
  assert (valid_ref (heap sample_state) (Entry_Data sample_entry)) as H1.
  { vm_compute. eauto. }
  split; [exact H1|].
  exact (proj2 (With_is_chained_WithField sample_entry "k" (VInt 5) []
                  sample_state H1)).
Defined.

(** ** Module tags, errors and the gate *)

(** X5.  [WithModule] and the gate round-trip: whatever the parent's module
    field held (even a value that is not a string), the record
    [WithModule(name)] returns resolves to [name], and its gate check
    returns, comparing against the minimum of [name]. *)
Theorem WithModule_sets_gate_module (loggers : LoggerPtr → Logger)
    (E : Entry) (name : string) (lv : Level) (s : State) :
  ∃ E' s',
    Entry_WithModule E name s = (Return E', s') ∧
    resolved_module (heap s') E' = Some name ∧
    Entry_matchLevel loggers E' lv s'
      = (Return (Level_geb (Logger_level (loggers (Entry_Logger E)) name) lv), s').
Proof.
  eexists _, _. split; [apply Entry_WithField_run|].
  assert (resolved_module
            (heap (set_heap
               (<[fresh (dom (<[fresh (dom (heap s)) :=
                                  ({[ModuleNameKey := VString name]} : FieldMap)]>
                                (heap s))) :=
                    <[ModuleNameKey := VString name]>
                      (deref (<[fresh (dom (heap s)) :=
                                  ({[ModuleNameKey := VString name]} : FieldMap)]>
                                (heap s)) (Entry_Data E))]>
                  (<[fresh (dom (heap s)) :=
                       ({[ModuleNameKey := VString name]} : FieldMap)]> (heap s))) s))
            (mkEntry (Entry_Logger E)
               (Some (fresh (dom (<[fresh (dom (heap s)) :=
                                      ({[ModuleNameKey := VString name]} : FieldMap)]>
                                    (heap s))))))
          = Some name) as Hres.
  { unfold resolved_module. simpl. rewrite lookup_insert_eq. simpl.
    by rewrite lookup_insert_eq. }
  split; [exact Hres|].
  by rewrite Entry_matchLevel_run, Hres.
Qed.

(** X6.  [WithError] retags the record.  For a structured error whose attached
    fields carry no module entry, the record [WithError] returns is gated
    by the error's module name when that name is not empty, and keeps the
    parent's module otherwise; for any other error the parent's module is
    kept. *)
Theorem WithError_sets_gate_module (E : Entry) (err : error) (s : State) :
  valid_ref (heap s) (Entry_Data E) →
  ∃ E' s',
    Entry_WithError E err s = (Return E', s') ∧
    match err with
    | Some (StructuredError r) =>
        deref (heap s) (Error_Fields r) !! ModuleNameKey = None →
        resolved_module (heap s') E'
        = if decide (Error_Name r = "") then resolved_module (heap s) E
          else Some (Error_Name r)
    | _ => resolved_module (heap s') E' = resolved_module (heap s) E
    end.
Proof.
  intros Hv.
  destruct (Entry_WithError_derived E err s Hv) as (E' & s' & Hrun & Hd).
  exists E', s'. split; [done|].
  pose proof (derived_contents _ _ _ _ _ Hd) as Hc. unfold resolved_module.
  destruct err as [[r|msg]|]; rewrite Hc.
  - intros Hatt.
    rewrite !lookup_union, Hatt, reserved_fields_lookup.
    repeat (rewrite decide_False by done). rewrite decide_True by done.
    destruct (decide (Error_Name r = "")); simpl.
    + by destruct (deref (heap s) (Entry_Data E) !! ModuleNameKey).
    + by destruct (deref (heap s) (Entry_Data E) !! ModuleNameKey).
  - rewrite lookup_union_r; [done|].
    rewrite lookup_insert_ne by done. by rewrite lookup_singleton_ne.
  - rewrite lookup_union_r; [done|].
    rewrite lookup_insert_ne by done. by rewrite lookup_singleton_ne.
Qed.

Lemma WithError_sets_gate_module_witness :
  valid_ref (heap shadowing_state) (Entry_Data sample_entry) ∧
  ∃ E' s',
    Entry_WithError sample_entry (Some (PlainError "eof")) shadowing_state
      = (Return E', s') ∧
    resolved_module (heap s') E' = resolved_module (heap shadowing_state) sample_entry.
Proof.
  assert (valid_ref (heap shadowing_state) (Entry_Data sample_entry)) as H1.
  { vm_compute. eauto. }
  split; [exact H1|].
  exact (WithError_sets_gate_module sample_entry (Some (PlainError "eof"))
           shadowing_state H1).
Defined.

(** X7.  [NewEntry] returns a record of the given logger with a new, empty,
    non-nil map: it has no fields, the gate resolves it to the default
    module, and chaining a map onto it gives exactly that map's fields. *)
Theorem NewEntry_is_empty (logger : LoggerPtr) (F : Fields) (s : State) :
  valid_ref (heap s) F →
  ∃ E s' l,
    NewEntry logger s = (Return E, s') ∧
    Entry_Logger E = logger ∧
    Entry_Data E = Some l ∧ heap s !! l = None ∧ heap s' !! l = Some ∅ ∧
    (∀ l', is_Some (heap s !! l') → heap s' !! l' = heap s !! l') ∧
    resolved_module (heap s') E = Some DefaultModuleName ∧
    ∃ E' s'',
      Entry_WithFields E F s' = (Return E', s'') ∧
      deref (heap s'') (Entry_Data E') = deref (heap s) F.
Proof.
  intros HvF.
  pose proof (fresh_loc_None (heap s)) as Hl.
  set (l := fresh (dom (heap s))) in *.
  exists (mkEntry logger (Some l)), (set_heap (<[l := ∅]> (heap s)) s), l.
  split; [done|]. split; [done|]. split; [done|]. split; [done|].
  split; [simpl; apply lookup_insert_eq|]. split.
  { intros l' [c Hc]. simpl. rewrite lookup_insert_ne; [done|congruence]. }
  split.
  { unfold resolved_module. simpl. by rewrite lookup_insert_eq. }
  destruct (Entry_WithFields_derived (mkEntry logger (Some l)) F
              (set_heap (<[l := ∅]> (heap s)) s)) as (E' & s'' & Hrun & Hd).
  exists E', s''. split; [done|].
  rewrite (derived_contents _ _ _ _ _ Hd). simpl.
  rewrite lookup_insert_eq. simpl. rewrite (right_id_L ∅ (∪)).
  by apply deref_insert_valid.
Qed.

Lemma NewEntry_is_empty_witness :
  valid_ref (heap sample_state) (Some 2%positive) ∧
  ∃ E s' E' s'',
    NewEntry 7 sample_state = (Return E, s') ∧
    Entry_WithFields E (Some 2%positive) s' = (Return E', s'') ∧
    deref (heap s'') (Entry_Data E') = {[ "a" := VInt 7; "req" := VInt 42 ]}.
Proof.
  assert (valid_ref (heap sample_state) (Some 2%positive)) as H1.
  { vm_compute. eauto. }
  split; [exact H1|].
  destruct (NewEntry_is_empty 7 (Some 2%positive) sample_state H1)
    as (E & s' & l & Hrun & _ & _ & _ & _ & _ & _ & E' & s'' & Hrun' & Hc).
  exists E, s', E', s''. split; [exact Hrun|]. split; [exact Hrun'|].
  rewrite Hc. by vm_compute.
Defined.



(** ** [NewErrorGenerator] and the checked assertion *)

(** X9.  [NewErrorGenerator] never panics.  Its module name is the entry's
    module field when that holds a string and the default name otherwise
    (the key absent, the map nil, or a value that is not a string: the
    type assertion is the checked one).  Its fields are a new map object
    holding a copy of the entry's fields, and every existing map is left
    as it was. *)
Theorem NewErrorGenerator_checked_and_copying (E : Entry) (s : State) :
  ∃ g l s',
    Entry_NewErrorGenerator E s = (Return g, s') ∧
    Generator_Name g
      = match deref (heap s) (Entry_Data E) !! ModuleNameKey with
        | Some (VString n) => n
        | _ => DefaultModuleName
        end ∧
    Generator_Fields g = Some l ∧
    heap s !! l = None ∧
    heap s' !! l = Some (deref (heap s) (Entry_Data E)) ∧
    (∀ l', is_Some (heap s !! l') → heap s' !! l' = heap s !! l') ∧
    s' = set_heap (heap s') s.
Proof.
  pose proof (fresh_loc_None (heap s)) as Hl.
  unfold Entry_NewErrorGenerator.
  erewrite bind_Return; last by reflexivity.
  erewrite bind_Return; last by reflexivity.
  erewrite bind_Return; last first.
  { apply copy_into_run. simpl. apply lookup_insert_eq. }
  eexists _, (fresh (dom (heap s))), _. split; [reflexivity|].
  simpl. split; [|split; [done|split; [done|split; [|split]]]].
  - unfold checked_string.
    by destruct (deref (heap s) (Entry_Data E) !! ModuleNameKey) as [[]|].
  - rewrite lookup_insert_eq, (right_id_L ∅ (∪)).
    by rewrite deref_insert_fresh_empty.
  - intros l' [c Hc]. rewrite insert_insert_eq.
    rewrite lookup_insert_ne; [done|congruence].
  - by rewrite insert_insert_eq.
Qed.

(** C2, at the failing input.  The entry's module field holds 42 (as
    [With("module", 42)] leaves it) and the logger's minimum is Trace for
    every module, so every requested severity is at least as severe as the
    minimum of whatever module the gate could resolve.  The Info call is
    not emitted: [matchLevel] panics in its unchecked type assertion
    before the registry is consulted and the state stays as it was.  On
    the same entry [NewErrorGenerator], which uses the checked assertion,
    resolves the default module name. *)
Theorem gate_has_no_fallback_for_non_string_module :
  deref (heap untyped_module_state) (Entry_Data untyped_module_entry)
    !! ModuleNameKey = Some (VInt 42) ∧
  (∀ name lv,
      at_least_as_severe lv
        (Logger_level (trace_loggers (Entry_Logger untyped_module_entry)) name)) ∧
  Entry_matchLevel trace_loggers untyped_module_entry InfoLevel
    untyped_module_state
    = (Panicked type_assertion_panic, untyped_module_state) ∧
  Entry_Info trace_loggers sample_Sdump untyped_module_entry [VString "hi"]
    untyped_module_state
    = (Panicked type_assertion_panic, untyped_module_state) ∧
  trace untyped_module_state = [] ∧
  (∃ s',
      Entry_Info trace_loggers sample_Sdump sample_entry [VString "hi"]
        untyped_module_state = (Return tt, s') ∧
      existsb is_write (trace s') = true) ∧
  ∃ g s',
    Entry_NewErrorGenerator untyped_module_entry untyped_module_state
      = (Return g, s') ∧
    Generator_Name g = DefaultModuleName.
Proof.
  split; [by vm_compute|]. split.
  { intros name lv. unfold at_least_as_severe. simpl. by destruct lv. }
  split; [by vm_compute|]. split; [by vm_compute|]. split; [done|].
  split.
  - eexists. split; by vm_compute.
  - eexists _, _. split; by vm_compute.
Qed.

(** ** [sprintlnn] and [String] *)

Lemma length_append_LF (t : string) :
  String.length (t +:+ LF) = S (String.length t).
Proof. induction t as [|a t IH]; simpl; [done|by rewrite IH]. Qed.

Lemma substring_append_LF (t : string) :
  String.substring 0 (String.length t) (t +:+ LF) = t.
Proof. induction t as [|a t IH]; simpl; [done|by rewrite IH]. Qed.

(** X10.  [sprintlnn] appends a newline to the dump of its arguments and cuts
    the last byte off again: its result is the dump itself, whether or
    not the dump ends in a newline of its own. *)
Theorem sprintlnn_is_the_dump (spew_Sdump : list Value → string)
    (args : list Value) :
  Entry_sprintlnn spew_Sdump args = spew_Sdump args.
Proof.
  unfold Entry_sprintlnn. rewrite length_append_LF. simpl.
  rewrite Nat.sub_0_r. apply substring_append_LF.
Qed.

Section Formatted.

Variable loggers : LoggerPtr → Logger.
Variable spew_Sdump : list Value → string.
Variable fmt_Sprintf : string → list Value → string.
Variable spew_Sprintf : string → list Value → string.

Local Abbreviation call' := (call loggers spew_Sdump fmt_Sprintf spew_Sprintf).
Local Abbreviation message' := (Method_message spew_Sdump fmt_Sprintf spew_Sprintf).


(** X12.  No logging method emits twice.  In a call of any of the 27 methods on
    an entry whose module resolves, the hooks are fired, a buffer is
    taken, the formatter is called and the buffer is put back exactly
    once when the gate is open and not at all when it is closed, although
    the Printf and Println families test the gate twice; the sink is
    written exactly once when moreover the formatter succeeds, and not at
    all otherwise. *)
Theorem call_emits_at_most_once (m : Method) (entry : Entry) (fmt : string)
    (args : list Value) (s : State) (name : string) :
  resolved_module (heap s) entry = Some name →
  let open :=
    Level_geb (Logger_level (loggers (Entry_Logger entry)) name) (Method_level m) in
  let em := emission loggers entry (Method_level m) (message' m fmt args) s in
  ∃ o s' evs,
    call' m entry fmt args s = (o, s') ∧
    trace s' = trace s ++ evs ∧
    count is_fire evs = (if open then 1 else 0) ∧
    count is_get evs = (if open then 1 else 0) ∧
    count is_format evs = (if open then 1 else 0) ∧
    count is_put evs = (if open then 1 else 0) ∧
    count is_write evs
      = (if open then
           match em_format_error em with Some _ => 0 | None => 1 end
         else 0).
Proof.
  intros Hres open em. subst open.
  destruct (Level_geb _ _) eqn:Hgate.
  - exists (emitted_outcome m em), (emitted_state (Method_level m) em s),
      (log_events (Method_level m) em).
    split; [by eapply call_open|]. split; [done|].
    clearbody em. unfold log_events, count.
    destruct (em_hook_error em), (em_format_error em), (em_write_error em);
      by repeat split.
  - exists (suppressed_outcome m), s, [].
    split; [by eapply call_closed|]. split; [by rewrite app_nil_r|].
    by repeat split.
Qed.


(** X14.  Panic, Panicf and Panicln are emitted whatever minimum the logger has
    for the module: the call always runs the emission step and unwinds
    with the record, its buffer detached, as payload; the panic with the
    message string that follows the gate in [Panic] is never reached. *)
Theorem Panic_calls_always_emit (m : Method) (entry : Entry) (fmt : string)
    (args : list Value) (s : State) (name : string) :
  resolved_module (heap s) entry = Some name →
  Method_level m = PanicLevel →
  let em := emission loggers entry PanicLevel (message' m fmt args) s in
  call' m entry fmt args s
    = (Panicked (PanicEntry (em_payload em)), emitted_state PanicLevel em s) ∧
  Entry_Buffer (em_payload em) = None ∧
  (∀ msg, call' m entry fmt args s ≠ (Panicked (PanicString msg), s)).
Proof.
  intros Hres Hlv em.
  assert (Level_geb (Logger_level (loggers (Entry_Logger entry)) name)
            (Method_level m) = true) as Hgate.
  { rewrite Hlv. unfold Level_geb. by destruct (Logger_level _ _). }
  pose proof (call_open loggers spew_Sdump fmt_Sprintf spew_Sprintf
                m entry fmt args s name Hres Hgate) as Hrun.
  simpl in Hrun. unfold emitted_outcome in Hrun. rewrite Hlv in Hrun.
  split; [exact Hrun|]. split; [done|].
  intros msg. rewrite Hrun. intros [=].
Qed.

(** X15.  How a logging call on an entry whose module resolves ends is fixed by
    its severity alone, whether or not the record is emitted and whatever
    hooks, formatter and writer answer: the severities below Fatal
    return, Fatal terminates the process with status 1, Panic unwinds
    with a record.  The call leaves the number of checked-out buffers,
    the clock and the call stack as they were. *)
Theorem call_ends_by_severity (m : Method) (entry : Entry) (fmt : string)
    (args : list Value) (s : State) (name : string) :
  resolved_module (heap s) entry = Some name →
  ∃ o s',
    call' m entry fmt args s = (o, s') ∧
    match Method_level m with
    | PanicLevel => ∃ e, o = Panicked (PanicEntry e)
    | FatalLevel => o = Exited 1
    | _ => o = Return tt
    end ∧
    pool_out (pool s') = pool_out (pool s) ∧
    clock s' = clock s ∧
    callstack s' = callstack s.
Proof.
  intros Hres.
  destruct (Level_geb (Logger_level (loggers (Entry_Logger entry)) name)
              (Method_level m)) eqn:Hgate.
  - eexists _, _. split; [by eapply call_open|].
    unfold emitted_outcome. split.
    + destruct (Method_level m); eauto.
    + simpl. by rewrite pool_after_out.
  - exists (suppressed_outcome m), s. split; [by eapply call_closed|].
    unfold suppressed_outcome. split; [|done].
    destruct (Method_level m) eqn:Hlv; try done.
    unfold Level_geb in Hgate. simpl in Hgate.
    by destruct (Logger_level _ _).
Qed.

(** X16.  The gate is monotone in the severity: when it lets a severity through
    for an entry, it lets every severity through that is at least as
    severe. *)
Theorem gate_monotone_in_severity (entry : Entry) (l1 l2 : Level) (s : State) :
  at_least_as_severe l1 l2 →
  Entry_matchLevel loggers entry l2 s = (Return true, s) →
  Entry_matchLevel loggers entry l1 s = (Return true, s).
Proof.
  intros Hsev. rewrite !Entry_matchLevel_run.
  destruct (resolved_module (heap s) entry) as [name|]; [|done].
  intros [= Hgate]. do 2 f_equal.
  apply Level_geb_severe. apply Level_geb_severe in Hgate.
  unfold at_least_as_severe in *. lia.
Qed.


End Formatted.

Lemma call_emits_at_most_once_witness :
  resolved_module (heap sample_state) sample_entry = Some "" ∧
  ∃ o s' evs,
    call gating_loggers sample_Sdump sample_Sprintf sample_Sprintf
      Infof sample_entry "%v" [VInt 1] sample_state = (o, s') ∧
    trace s' = trace sample_state ++ evs ∧
    count is_fire evs = 1 ∧
    count is_write evs = 1.
Proof.
  assert (resolved_module (heap sample_state) sample_entry = Some "") as H1
    by (by vm_compute).
  split; [exact H1|].
  destruct (call_emits_at_most_once gating_loggers sample_Sdump sample_Sprintf
              sample_Sprintf Infof sample_entry "%v" [VInt 1] sample_state "" H1)
    as (o & s' & evs & Hrun & Htr & Hfire & _ & _ & _ & Hwrite).
  exists o, s', evs. split; [exact Hrun|]. split; [exact Htr|].
  split; [exact Hfire|exact Hwrite].
Defined.

Lemma Panic_calls_always_emit_witness :
  resolved_module (heap sample_state) sample_entry = Some "" ∧
  Method_level Panicf = PanicLevel ∧
  Entry_Buffer
    (em_payload
       (emission panic_only_loggers sample_entry PanicLevel
          (Method_message sample_Sdump sample_Sprintf sample_Sprintf
             Panicf "boom" [])
          sample_state)) = None.
Proof.
  assert (resolved_module (heap sample_state) sample_entry = Some "") as H1
    by (by vm_compute).
  assert (Method_level Panicf = PanicLevel) as H2 by reflexivity.
  split; [exact H1|]. split; [exact H2|].
  exact (proj1 (proj2 (Panic_calls_always_emit panic_only_loggers sample_Sdump
                         sample_Sprintf sample_Sprintf Panicf sample_entry
                         "boom" [] sample_state "" H1 H2))).
Defined.

Lemma call_ends_by_severity_witness :
  resolved_module (heap sample_state) sample_entry = Some "" ∧
  ∃ o s',
    call failing_format_loggers sample_Sdump sample_Sprintf sample_Sprintf
      Fatalln sample_entry "" [VString "boom"] sample_state = (o, s') ∧
    pool_out (pool s') = pool_out (pool sample_state).
Proof.
  assert (resolved_module (heap sample_state) sample_entry = Some "") as H1
    by (by vm_compute).
  split; [exact H1|].
  destruct (call_ends_by_severity failing_format_loggers sample_Sdump
              sample_Sprintf sample_Sprintf Fatalln sample_entry ""
              [VString "boom"] sample_state "" H1)
    as (o & s' & Hrun & _ & Hpool & _).
  exists o, s'. split; [exact Hrun|exact Hpool].
Defined.

Lemma gate_monotone_in_severity_witness :
  at_least_as_severe ErrorLevel InfoLevel ∧
  Entry_matchLevel gating_loggers sample_entry InfoLevel sample_state
    = (Return true, sample_state) ∧
  Entry_matchLevel gating_loggers sample_entry ErrorLevel sample_state
    = (Return true, sample_state).
Proof.
  assert (at_least_as_severe ErrorLevel InfoLevel) as H1.
  { unfold at_least_as_severe. vm_compute. discriminate. }
  assert (Entry_matchLevel gating_loggers sample_entry InfoLevel sample_state
          = (Return true, sample_state)) as H2 by (by vm_compute).
  split; [exact H1|]. split; [exact H2|].
  exact (gate_monotone_in_severity gating_loggers sample_entry ErrorLevel
           InfoLevel sample_state H1 H2).
Defined.

